(** * A rich-text editing engine: history, sanitization, span styling

    Shallow embedding of the editing core of the React rich-text editor:
    [useHistoryStack.ts], [useEditorSelection.ts], [useEditorCommands.ts],
    the image-resize handlers of [RichTextEditor.tsx] and
    [ImageResizeWrapper.tsx], the imperative handle and the Enter key of
    [RichTextEditor.tsx], the form of [LinkModal.tsx] and the labels of
    [Toolbar.tsx].

    Conventions of the embedding.
    - The document is a tree of text and element nodes.  An element
      carries its upper-case [tagName], its attributes other than [style],
      and its inline style as the ordered list of declarations that
      [el.style] holds.  Markup strings ([innerHTML], clipboard HTML) are
      represented by the trees they denote, so parsing and serialization
      are the identity of the model.
    - A node is addressed by the list of child indices leading to it from
      the editor element; a DOM [Range] is two such addresses with offsets.
    - The window selection belongs to the browser: every entry point reads
      it afresh, so each event of the model carries the selection it sees.
      A selection lies inside the editor element.  Where a command ends by
      placing the caret, that placement is left out: it changes neither
      the document nor the history.
    - [Date.now()] is an input of each event; pending timers are state.
    - Pixel sizes are rational numbers. *)

From Stdlib Require Import String Ascii List ZArith QArith Qminmax Bool Lia Lqa.

Set Warnings "-register-all".
Import ListNotations.
Close Scope Q_scope.
Open Scope string_scope.
Open Scope list_scope.

(* ================================================================== *)
(** ** The document tree                                                *)
(* ================================================================== *)

Module Dom.

(** [el.style]: declarations in order, property name first. *)
Definition CSSStyleDeclaration := list (string * string).

Inductive Node : Type :=
| Text (data : string)
| Element (tagName : string) (attributes : list (string * string))
    (style : CSSStyleDeclaration) (childNodes : list Node).

Definition isElement (n : Node) : bool :=
  match n with Element _ _ _ _ => true | Text _ => false end.

Definition tagOf (n : Node) : string :=
  match n with Element t _ _ _ => t | Text _ => "" end.

Definition styleOf (n : Node) : CSSStyleDeclaration :=
  match n with Element _ _ st _ => st | Text _ => [] end.

Definition attributesOf (n : Node) : list (string * string) :=
  match n with Element _ a _ _ => a | Text _ => [] end.

Definition childrenOf (n : Node) : list Node :=
  match n with Element _ _ _ cs => cs | Text _ => [] end.

(** [Array.prototype.includes] on an array of strings. *)
Definition includes (l : list string) (s : string) : bool :=
  existsb (String.eqb s) l.
#[global] Arguments includes : simpl never.

(** A JavaScript string is truthy when it is not empty. *)
Definition truthy (s : string) : bool :=
  match s with EmptyString => false | _ => true end.

(** [style.getPropertyValue(prop)]: the empty string when undeclared. *)
Fixpoint getPropertyValue (st : CSSStyleDeclaration) (prop : string) : string :=
  match st with
  | [] => ""
  | (k, v) :: rest => if String.eqb k prop then v else getPropertyValue rest prop
  end.

(** Assignment to one property, of a style block or of a plain object
    whose keys keep insertion order: an existing key keeps its place. *)
Fixpoint setProperty (st : CSSStyleDeclaration) (prop value : string)
  : CSSStyleDeclaration :=
  match st with
  | [] => [(prop, value)]
  | (k, v) :: rest =>
      if String.eqb k prop then (k, value) :: rest
      else (k, v) :: setProperty rest prop value
  end.

(** [style.cssText = text]: the declarations of [text] are read in order,
    a later declaration of a property replacing an earlier one. *)
Definition setCssText (decls : list (string * string)) : CSSStyleDeclaration :=
  fold_left (fun st d => setProperty st (fst d) (snd d)) decls [].

(** [getAttribute], with the empty string standing for a missing one
    (the reflecting properties [href], [src] read that way). *)
Fixpoint getAttribute (attrs : list (string * string)) (name : string) : string :=
  match attrs with
  | [] => ""
  | (k, v) :: rest => if String.eqb k name then v else getAttribute rest name
  end.

(** [node.textContent]. *)
Fixpoint textContent (n : Node) : string :=
  match n with
  | Text d => d
  | Element _ _ _ cs => fold_right (fun c acc => (textContent c ++ acc)%string) "" cs
  end.

Definition textContentOfList (cs : list Node) : string :=
  fold_right (fun c acc => (textContent c ++ acc)%string) "" cs.

(** [el.querySelector(tag)] is not null: some proper descendant is an
    element of that tag. *)
Fixpoint hasDescendant (tag : string) (n : Node) : bool :=
  match n with
  | Text _ => false
  | Element _ _ _ cs =>
      existsb (fun c => (isElement c && String.eqb (tagOf c) tag) || hasDescendant tag c) cs
  end.


(** White space as [String.prototype.trim] sees it, within ASCII. *)
Definition isSpace (c : ascii) : bool :=
  let n := nat_of_ascii c in
  Nat.eqb n 32 || (Nat.leb 9 n && Nat.leb n 13).

Fixpoint trimStart (s : string) : string :=
  match s with
  | String c rest => if isSpace c then trimStart rest else s
  | EmptyString => EmptyString
  end.

Fixpoint allSpace (s : string) : bool :=
  match s with
  | String c rest => isSpace c && allSpace rest
  | EmptyString => true
  end.

Fixpoint trimEnd (s : string) : string :=
  match s with
  | String c rest => if allSpace s then EmptyString else String c (trimEnd rest)
  | EmptyString => EmptyString
  end.

Definition trim (s : string) : string := trimEnd (trimStart s).

(** [String.prototype.includes]. *)
Fixpoint strIncludes (s sub : string) : bool :=
  String.prefix sub s ||
  match s with
  | String _ rest => strIncludes rest sub
  | EmptyString => false
  end.

Definition isDigit (c : ascii) : bool :=
  let n := nat_of_ascii c in Nat.leb 48 n && Nat.leb n 57.

Fixpoint digitsValue (acc : Z) (s : string) : Z :=
  match s with
  | String c rest =>
      if isDigit c then digitsValue (10 * acc + Z.of_nat (nat_of_ascii c - 48)) rest
      else acc
  | EmptyString => acc
  end.

(** [parseInt(s)] in base ten; [None] is [NaN]. *)
Definition parseInt (s : string) : option Z :=
  match trimStart s with
  | String c rest =>
      if isDigit c then Some (digitsValue 0 (String c rest))
      else if Ascii.eqb c "-"%char then
        match rest with
        | String d _ => if isDigit d then Some (- digitsValue 0 rest)%Z else None
        | EmptyString => None
        end
      else if Ascii.eqb c "+"%char then
        match rest with
        | String d _ => if isDigit d then Some (digitsValue 0 rest) else None
        | EmptyString => None
        end
      else None
  | EmptyString => None
  end.

(** Every element of the subtree, the root included, satisfies [P]. *)
Fixpoint allElements (P : Node -> bool) (n : Node) : bool :=
  match n with
  | Text _ => true
  | Element _ _ _ cs => P n && forallb (allElements P) cs
  end.

(** The tree without its styles. *)
Fixpoint shape (n : Node) : Node :=
  match n with
  | Text d => Text d
  | Element t a _ cs => Element t a [] (map shape cs)
  end.

(** Induction on trees: an element holds when all its children do. *)
Section NodeInduction.
Variable P : Node -> Prop.
Hypothesis HText : forall d, P (Text d).
Hypothesis HElement : forall t a st cs, Forall P cs -> P (Element t a st cs).

Fixpoint Node_nested_ind (n : Node) : P n :=
  match n with
  | Text d => HText d
  | Element t a st cs =>
      HElement t a st cs
        ((fix all (l : list Node) : Forall P l :=
            match l with
            | [] => Forall_nil P
            | c :: l' => Forall_cons c (Node_nested_ind c) (all l')
            end) cs)
  end.
End NodeInduction.

End Dom.
Import Dom.

(* ================================================================== *)
(** ** Paste sanitization ([useEditorCommands.ts], [sanitizeHTML])      *)
(* ================================================================== *)

Module Sanitize.

Definition ALLOWED_TAGS : list string :=
  ["P"; "H1"; "H2"; "H3"; "UL"; "OL"; "LI"; "BLOCKQUOTE"; "PRE"; "A"; "B";
   "STRONG"; "I"; "EM"; "U"; "S"; "STRIKE"; "SPAN"; "BR"; "IMG"; "DIV"].

Definition allowedStyles : list string :=
  ["color"; "background-color"; "background";
   "font-size"; "font-family"; "font-weight"; "font-style";
   "text-decoration"; "text-decoration-line"; "text-decoration-color";
   "text-decoration-style";
   "text-align"; "text-indent"; "text-transform";
   "line-height"; "letter-spacing"; "word-spacing";
   "margin"; "margin-top"; "margin-right"; "margin-bottom"; "margin-left";
   "padding"; "padding-top"; "padding-right"; "padding-bottom"; "padding-left";
   "border"; "border-radius";
   "width"; "height"; "max-width"; "max-height";
   "display"; "vertical-align"].

Definition blockTags : list string :=
  ["DIV"; "SECTION"; "ARTICLE"; "HEADER"; "FOOTER"; "MAIN"; "NAV"; "ASIDE"].

Definition allowedAttrs : list string :=
  ["href"; "src"; "alt"; "style"; "class"; "target"; "rel"; "data-editor-image"].

(** The [styleObj] of an allowed element: one entry per allowed property
    with a non-empty value, in the order of [allowedStyles], then the
    [text-align] entry written once more from [el.style.textAlign]. *)
Definition styleObj (st : CSSStyleDeclaration) : list (string * string) :=
  let obj :=
    fold_left
      (fun obj prop =>
         let value := getPropertyValue st prop in
         if truthy value then setProperty obj prop value else obj)
      allowedStyles [] in
  let computedAlign := getPropertyValue st "text-align" in
  if truthy computedAlign then setProperty obj "text-align" computedAlign else obj.




(** The style of an allowed element after the pass: rebuilt from
    [styleObj] when [el.style.cssText] is not empty, else untouched. *)
Definition sanitizeStyle (st : CSSStyleDeclaration) : CSSStyleDeclaration :=
  match st with
  | [] => st
  | _ => setCssText (styleObj st)
  end.

(** What the pass makes of one child of the node being sanitized.
    A replacement [p] or [span] receives the children of the element it
    replaces and, when that element's [cssText] is not empty, its whole
    [cssText]; then the recursive call visits the replacement's children. *)
Fixpoint sanitizeChild (child : Node) : Node :=
  match child with
  | Text _ => child
  | Element tagName attrs st cs =>
      if negb (includes ALLOWED_TAGS tagName) then
        if includes blockTags tagName then
          Element "P" [] st (map sanitizeChild cs)
        else
          Element "SPAN" [] st (map sanitizeChild cs)
      else
        Element tagName
          (filter (fun attr => includes allowedAttrs (fst attr)) attrs)
          (sanitizeStyle st)
          (map sanitizeChild cs)
  end.

(** [sanitize(node)] acts on the children of [node]. *)
Definition sanitize (children : list Node) : list Node :=
  map sanitizeChild children.

(** [sanitizeHTML(html)]: the argument is the content of [doc.body] that
    the markup parses to, the result the tree that [body.innerHTML]
    serializes. *)
Definition sanitizeHTML (html : list Node) : list Node := sanitize html.

(** The whitelist postcondition, as a decidable check on one element. *)
Definition tagAllowed (n : Node) : bool := includes ALLOWED_TAGS (tagOf n).

Definition attrsAllowed (n : Node) : bool :=
  forallb (fun attr => includes allowedAttrs (fst attr)) (attributesOf n).

Definition stylesAllowed (n : Node) : bool :=
  forallb (fun d => includes allowedStyles (fst d)) (styleOf n).

Definition whitelisted (n : Node) : bool :=
  tagAllowed n && attrsAllowed n && stylesAllowed n.

End Sanitize.

(* ================================================================== *)
(** ** Node addresses and DOM ranges                                    *)
(* ================================================================== *)

Module DomRange.

(** Child indices from the editor element down to a node; the empty
    path is the editor element itself. *)
Definition Path := list nat.

Record Range : Type := mkRange {
  startContainer : Path;
  startOffset : nat;
  endContainer : Path;
  endOffset : nat
}.

Fixpoint pathEqb (p q : Path) : bool :=
  match p, q with
  | [], [] => true
  | i :: p', j :: q' => Nat.eqb i j && pathEqb p' q'
  | _, _ => false
  end.

(** [range.collapsed]. *)
Definition collapsed (r : Range) : bool :=
  pathEqb (startContainer r) (endContainer r) && Nat.eqb (startOffset r) (endOffset r).

(** The editor element, around the document content. *)
Definition editor (content : list Node) : Node := Element "DIV" [] [] content.

Fixpoint nodeAt (n : Node) (p : Path) : option Node :=
  match p with
  | [] => Some n
  | i :: p' =>
      match nth_error (childrenOf n) i with
      | Some c => nodeAt c p'
      | None => None
      end
  end.

(** The non-empty prefixes of a path, shortest first. *)
Fixpoint prefixes (p : Path) : list Path :=
  match p with
  | [] => []
  | i :: p' => [i] :: map (cons i) (prefixes p')
  end.

(** The nodes met by [while (node && node !== editorRef.current)
    { ...; node = node.parentNode }] started at the node of path [p]:
    that node first, the child of the editor element last. *)
Definition ancestors (content : list Node) (p : Path) : list (Path * Node) :=
  flat_map
    (fun q => match nodeAt (editor content) q with
              | Some n => [(q, n)]
              | None => []
              end)
    (rev (prefixes p)).

(** [range.commonAncestorContainer]. *)
Fixpoint commonPrefix (p q : Path) : Path :=
  match p, q with
  | i :: p', j :: q' => if Nat.eqb i j then i :: commonPrefix p' q' else []
  | _, _ => []
  end.

Definition commonAncestorContainer (r : Range) : Path :=
  commonPrefix (startContainer r) (endContainer r).

Definition substringTo (o : nat) (s : string) : string := String.substring 0 o s.

Definition substringFrom (o : nat) (s : string) : string :=
  String.substring o (String.length s - o) s.

(** Replace the node of path [p] below [n] by the nodes [f] makes of it. *)
Fixpoint replaceAt (p : Path) (f : Node -> list Node) (n : Node) : list Node :=
  match p with
  | [] => f n
  | i :: p' =>
      match n with
      | Text _ => [n]
      | Element t a st cs =>
          match nth_error cs i with
          | Some c => [Element t a st (firstn i cs ++ replaceAt p' f c ++ skipn (S i) cs)]
          | None => [n]
          end
      end
  end.

(** The content after the node of the non-empty path [p] is replaced. *)
Definition replaceNode (content : list Node) (p : Path) (f : Node -> list Node)
  : list Node :=
  match p with
  | [] => content
  | _ =>
      match replaceAt p f (editor content) with
      | [Element _ _ _ cs] => cs
      | _ => content
      end
  end.

(** [range.insertNode] at the boundary point [(p, o)]: a text container
    is split at the offset, an element container receives the nodes
    before its child of index [o].  [nodes] holds one node, or the
    children of a document fragment. *)
Definition insertIn (o : nat) (nodes : list Node) (container : Node) : list Node :=
  match container with
  | Text d => [Text (substringTo o d)] ++ nodes ++ [Text (substringFrom o d)]
  | Element t a st cs => [Element t a st (firstn o cs ++ nodes ++ skipn o cs)]
  end.

Definition insertNode (content : list Node) (p : Path) (o : nat) (nodes : list Node)
  : list Node :=
  match replaceAt p (insertIn o nodes) (editor content) with
  | [Element _ _ _ cs] => cs
  | _ => content
  end.

(** Extraction from the boundary point [(p, o)] inside [n] to the end of
    [n]: the clone that goes to the fragment, and what stays of [n]. *)
Fixpoint extractFrom (p : Path) (o : nat) (n : Node) : Node * Node :=
  match n with
  | Text d => (Text (substringFrom o d), Text (substringTo o d))
  | Element t a st cs =>
      match p with
      | [] => (Element t a st (skipn o cs), Element t a st (firstn o cs))
      | i :: p' =>
          match nth_error cs i with
          | Some c =>
              let fr := extractFrom p' o c in
              (Element t a st (fst fr :: skipn (S i) cs),
               Element t a st (firstn i cs ++ [snd fr]))
          | None => (Element t a st [], n)
          end
      end
  end.

(** Extraction from the start of [n] to the boundary point [(p, o)]. *)
Fixpoint extractTo (p : Path) (o : nat) (n : Node) : Node * Node :=
  match n with
  | Text d => (Text (substringTo o d), Text (substringFrom o d))
  | Element t a st cs =>
      match p with
      | [] => (Element t a st (firstn o cs), Element t a st (skipn o cs))
      | j :: p' =>
          match nth_error cs j with
          | Some c =>
              let fr := extractTo p' o c in
              (Element t a st (firstn j cs ++ [fst fr]),
               Element t a st (snd fr :: skipn (S j) cs))
          | None => (Element t a st [], n)
          end
      end
  end.

(** The result of [extractContents]: the children of the fragment, the
    node that remains, and the boundary point the range collapses to. *)
Record Extraction : Type := mkExtraction {
  fragment : list Node;
  remaining : Node;
  newContainer : Path;
  newOffset : nat
}.

Definition sliceList {A} (i j : nat) (l : list A) : list A := firstn (j - i) (skipn i l).

(** [extractContents] of the range from [(sp, so)] to [(ep, eo)] below
    [n], by descent to the common ancestor container and then the three
    parts of the DOM algorithm: the first partially contained child, the
    contained children, the last partially contained child. *)
Fixpoint extractBetween (sp : Path) (so : nat) (ep : Path) (eo : nat) (n : Node)
  : Extraction :=
  match n with
  | Text d =>
      mkExtraction [Text (String.substring so (eo - so) d)]
        (Text (substringTo so d ++ substringFrom eo d)%string) [] so
  | Element t a st cs =>
      match sp, ep with
      | [], [] =>
          mkExtraction (sliceList so eo cs)
            (Element t a st (firstn so cs ++ skipn eo cs)) [] so
      | [], j :: ep' =>
          match nth_error cs j with
          | Some cj =>
              let lastPart := extractTo ep' eo cj in
              mkExtraction (sliceList so j cs ++ [fst lastPart])
                (Element t a st (firstn so cs ++ snd lastPart :: skipn (S j) cs)) [] so
          | None => mkExtraction [] n [] so
          end
      | i :: sp', [] =>
          match nth_error cs i with
          | Some ci =>
              let firstPart := extractFrom sp' so ci in
              mkExtraction (fst firstPart :: sliceList (S i) eo cs)
                (Element t a st (firstn i cs ++ snd firstPart :: skipn eo cs)) [] (S i)
          | None => mkExtraction [] n [] (S i)
          end
      | i :: sp', j :: ep' =>
          if Nat.eqb i j then
            match nth_error cs i with
            | Some c =>
                let sub := extractBetween sp' so ep' eo c in
                mkExtraction (fragment sub)
                  (Element t a st (firstn i cs ++ remaining sub :: skipn (S i) cs))
                  (i :: newContainer sub) (newOffset sub)
            | None => mkExtraction [] n [] 0
            end
          else
            match nth_error cs i, nth_error cs j with
            | Some ci, Some cj =>
                let firstPart := extractFrom sp' so ci in
                let lastPart := extractTo ep' eo cj in
                mkExtraction
                  (fst firstPart :: sliceList (S i) j cs ++ [fst lastPart])
                  (Element t a st
                     (firstn i cs ++ snd firstPart :: snd lastPart :: skipn (S j) cs))
                  [] (S i)
            | _, _ => mkExtraction [] n [] (S i)
            end
      end
  end.

(** [range.extractContents()] on the document; a collapsed range yields
    an empty fragment and changes nothing. *)
Definition extractContents (content : list Node) (r : Range) : Extraction :=
  if collapsed r then
    mkExtraction [] (editor content) (startContainer r) (startOffset r)
  else
    extractBetween (startContainer r) (startOffset r)
      (endContainer r) (endOffset r) (editor content).

(** [range.toString()]: the text the range contains. *)
Definition toString (content : list Node) (r : Range) : string :=
  textContentOfList (fragment (extractContents content r)).

End DomRange.

(* ================================================================== *)
(** ** The selection resolver ([useEditorSelection.ts])                 *)
(* ================================================================== *)

Module Selection.
Import DomRange.

Record EditorSelection : Type := mkEditorSelection {
  range : option Range;
  isCollapsed : bool;
  selStartContainer : option Path;
  selEndContainer : option Path;
  commonAncestor : option Path;
  text : string
}.

Record SelectionTarget : Type := mkSelectionTarget {
  node : option (Path * Node);
  isFullBlock : bool;
  blockElement : option (Path * Node)
}.

Definition BLOCK_ELEMENTS : list string :=
  ["H1"; "H2"; "H3"; "P"; "LI"; "BLOCKQUOTE"; "PRE"].

(** [getSelection()]; [windowSelection] is [None] when
    [window.getSelection()] holds no range. *)
Definition getSelection (content : list Node) (windowSelection : option Range)
  : EditorSelection :=
  match windowSelection with
  | None => mkEditorSelection None true None None None ""
  | Some r =>
      mkEditorSelection (Some r) (collapsed r)
        (Some (startContainer r)) (Some (endContainer r))
        (Some (commonAncestorContainer r)) (toString content r)
  end.

(** [findBlockParent(node)]: the first element on the way up whose tag
    is a block tag, with its address. *)
Definition findBlockParent (content : list Node) (node : option Path)
  : option (Path * Node) :=
  match node with
  | None => None
  | Some p =>
      find (fun qn => isElement (snd qn) && includes BLOCK_ELEMENTS (tagOf (snd qn)))
        (ancestors content p)
  end.

Definition isFullBlockSelected (content : list Node) (r : Range)
  (blockElement : Path * Node) : bool :=
  let blockPath := fst blockElement in
  let blockLength := List.length (childrenOf (snd blockElement)) in
  let startMatch :=
    pathEqb (startContainer r) blockPath && Nat.eqb (startOffset r) 0 in
  let endMatch :=
    pathEqb (endContainer r) blockPath && Nat.eqb (endOffset r) blockLength in
  if startMatch && endMatch then true
  else
    let blockText := textContent (snd blockElement) in
    let selectedText := toString content r in
    String.eqb (trim blockText) (trim selectedText)
    && Nat.ltb 0 (String.length selectedText).

Definition findFontTarget (content : list Node) (currentSel : EditorSelection)
  : SelectionTarget :=
  match range currentSel with
  | None => mkSelectionTarget None false None
  | Some r =>
      if isCollapsed currentSel then mkSelectionTarget None false None
      else
        match findBlockParent content (commonAncestor currentSel) with
        | None => mkSelectionTarget None false None
        | Some blockElement =>
            let isFullBlock := isFullBlockSelected content r blockElement in
            mkSelectionTarget (if isFullBlock then Some blockElement else None)
              isFullBlock (Some blockElement)
        end
  end.

(** The object [getActiveFormats] fills in; an absent key reads [false]
    or [None]. *)
Record Formats : Type := mkFormats {
  bold : bool;
  italic : bool;
  underline : bool;
  strike : bool;
  link : option string;
  block : option string;
  fontSize : option string;
  fontFamily : option string;
  color : option string;
  backgroundColor : option string;
  unorderedList : bool;
  orderedList : bool
}.

Definition noFormats : Formats :=
  mkFormats false false false false None None None None None None false false.

Definition lowerChar (c : ascii) : ascii :=
  let n := nat_of_ascii c in
  if Nat.leb 65 n && Nat.leb n 90 then ascii_of_nat (n + 32) else c.

Fixpoint toLowerCase (s : string) : string :=
  match s with
  | String c rest => String (lowerChar c) (toLowerCase rest)
  | EmptyString => EmptyString
  end.

(** [parseInt(style.fontWeight) >= 700]; a comparison with [NaN] fails. *)
Definition weightAtLeast700 (fontWeight : string) : bool :=
  match parseInt fontWeight with
  | Some w => Z.leb 700 w
  | None => false
  end.

(** One turn of the first loop of [getActiveFormats], at [node]. *)
Definition formatsStep (formats : Formats) (node : Node) : Formats :=
  match node with
  | Text _ => formats
  | Element tag attrs style _ =>
      let tagName := toLowerCase tag in
      let fontWeight := getPropertyValue style "font-weight" in
      let textDecoration := getPropertyValue style "text-decoration" in
      mkFormats
        (if String.eqb tagName "b" || String.eqb tagName "strong"
            || String.eqb fontWeight "bold" || weightAtLeast700 fontWeight
         then true else bold formats)
        (if String.eqb tagName "i" || String.eqb tagName "em"
            || String.eqb (getPropertyValue style "font-style") "italic"
         then true else italic formats)
        (if String.eqb tagName "u" || strIncludes textDecoration "underline"
         then true else underline formats)
        (if String.eqb tagName "s" || String.eqb tagName "strike"
            || strIncludes textDecoration "line-through"
         then true else strike formats)
        (if String.eqb tagName "a" then Some (getAttribute attrs "href")
         else link formats)
        (if includes BLOCK_ELEMENTS tag then Some tagName else block formats)
        (if truthy (getPropertyValue style "font-size")
         then Some (getPropertyValue style "font-size") else fontSize formats)
        (if truthy (getPropertyValue style "font-family")
         then Some (getPropertyValue style "font-family") else fontFamily formats)
        (if truthy (getPropertyValue style "color")
         then Some (getPropertyValue style "color") else color formats)
        (if truthy (getPropertyValue style "background-color")
         then Some (getPropertyValue style "background-color")
         else backgroundColor formats)
        (unorderedList formats)
        (orderedList formats)
  end.

(** One turn of the second loop, which looks for enclosing lists. *)
Definition listStep (formats : Formats) (listNode : Node) : Formats :=
  match listNode with
  | Text _ => formats
  | Element tagName _ _ _ =>
      mkFormats (bold formats) (italic formats) (underline formats) (strike formats)
        (link formats) (block formats) (fontSize formats) (fontFamily formats)
        (color formats) (backgroundColor formats)
        (if String.eqb tagName "UL" then true else unorderedList formats)
        (if String.eqb tagName "OL" then true else orderedList formats)
  end.

(** The nodes both loops visit, innermost first. *)
Definition walk (content : list Node) (r : Range) : list Node :=
  map snd (ancestors content (startContainer r)).

Definition getActiveFormats (content : list Node) (windowSelection : option Range)
  : Formats :=
  match range (getSelection content windowSelection) with
  | None => noFormats
  | Some r =>
      let formats := fold_left formatsStep (walk content r) noFormats in
      fold_left listStep (walk content r) formats
  end.

(** The scalar attributes of the active formats. *)
Inductive Scalar : Type :=
| LinkTarget | FontSize | FontFamily | TextColor | BackgroundColor | BlockKind.

Definition scalarOf (k : Scalar) (formats : Formats) : option string :=
  match k with
  | LinkTarget => link formats
  | FontSize => fontSize formats
  | FontFamily => fontFamily formats
  | TextColor => color formats
  | BackgroundColor => backgroundColor formats
  | BlockKind => block formats
  end.

(** The value a single node defines for a scalar attribute, if any:
    an anchor defines the link target, a block element the block kind,
    a non-empty style property the font and colour attributes. *)
Definition defines (k : Scalar) (n : Node) : option string :=
  let declared := fun prop =>
    if truthy (getPropertyValue (styleOf n) prop)
    then Some (getPropertyValue (styleOf n) prop) else None in
  if negb (isElement n) then None
  else
    match k with
    | LinkTarget =>
        if String.eqb (toLowerCase (tagOf n)) "a"
        then Some (getAttribute (attributesOf n) "href")
        else None
    | BlockKind =>
        if includes BLOCK_ELEMENTS (tagOf n) then Some (toLowerCase (tagOf n)) else None
    | FontSize => declared "font-size"
    | FontFamily => declared "font-family"
    | TextColor => declared "color"
    | BackgroundColor => declared "background-color"
    end.

End Selection.

(* ================================================================== *)
(** ** The history manager ([useHistoryStack.ts])                       *)
(* ================================================================== *)

Module History.
Import DomRange.

Record CursorPosition : Type := mkCursorPosition {
  startOffset : nat;
  endOffset : nat;
  startPath : Path;
  endPath : Path
}.

Record HistoryEntry : Type := mkHistoryEntry {
  html : list Node;
  cursorPosition : option CursorPosition
}.

Definition MAX_HISTORY_SIZE : nat := 100.

(** What the hook and the editor element hold between two events.
    [debounceTimeout] is the time at which the pending trailing timer
    fires, [None] when no timer is pending. *)
Record EditorState : Type := mkEditorState {
  innerHTML : list Node;
  undoStack : list HistoryEntry;
  redoStack : list HistoryEntry;
  isUndoRedoing : bool;
  lastSaveTime : Z;
  debounceTimeout : option Z
}.

(** The editor as mounted with [initialValue]. *)
Definition mount (initialValue : list Node) : EditorState :=
  mkEditorState initialValue [] [] false 0 None.

Definition setInnerHTML (content : list Node) (s : EditorState) : EditorState :=
  mkEditorState content (undoStack s) (redoStack s) (isUndoRedoing s)
    (lastSaveTime s) (debounceTimeout s).

(** [getNodePath] of a container is its address. *)
Definition getCursorPosition (windowSelection : option Range) : option CursorPosition :=
  match windowSelection with
  | None => None
  | Some r =>
      Some (mkCursorPosition (DomRange.startOffset r) (DomRange.endOffset r)
              (startContainer r) (endContainer r))
  end.

Definition getNodeFromPath (content : list Node) (path : Path) : option Node :=
  nodeAt (editor content) path.

(** [restoreCursorPosition]: the range it hands to the window selection,
    [None] when it gives up and leaves the selection alone. *)
Definition restoreCursorPosition (content : list Node)
  (position : option CursorPosition) : option Range :=
  match position with
  | None => None
  | Some pos =>
      match getNodeFromPath content (startPath pos),
            getNodeFromPath content (endPath pos) with
      | Some startNode, Some endNode =>
          Some (mkRange (startPath pos)
                  (Nat.min (startOffset pos) (String.length (textContent startNode)))
                  (endPath pos)
                  (Nat.min (endOffset pos) (String.length (textContent endNode))))
      | _, _ => None
      end
  end.

(** The updater handed to [setUndoStack] by [saveHistory]. *)
Definition pushCapped (prev : list HistoryEntry) (entry : HistoryEntry)
  : list HistoryEntry :=
  let newStack := prev ++ [entry] in
  if Nat.ltb MAX_HISTORY_SIZE (List.length newStack)
  then skipn (List.length newStack - MAX_HISTORY_SIZE) newStack
  else newStack.

(** [saveHistory()] called at time [now]. *)
Definition saveHistory (now : Z) (windowSelection : option Range) (s : EditorState)
  : EditorState :=
  if isUndoRedoing s then s
  else if (now - lastSaveTime s <? 50)%Z then
    mkEditorState (innerHTML s) (undoStack s) (redoStack s) (isUndoRedoing s)
      (lastSaveTime s) (Some (now + 50)%Z)
  else
    let entry := mkHistoryEntry (innerHTML s) (getCursorPosition windowSelection) in
    mkEditorState (innerHTML s) (pushCapped (undoStack s) entry) []
      (isUndoRedoing s) now (debounceTimeout s).

(** The trailing timer fires: it is no longer pending, and its callback
    calls [saveHistory]. Nothing happens before its time. *)
Definition debounceFires (now : Z) (windowSelection : option Range) (s : EditorState)
  : EditorState :=
  match debounceTimeout s with
  | Some due =>
      if (due <=? now)%Z then
        saveHistory now windowSelection
          (mkEditorState (innerHTML s) (undoStack s) (redoStack s)
             (isUndoRedoing s) (lastSaveTime s) None)
      else s
  | None => s
  end.

Definition undo (windowSelection : option Range) (s : EditorState) : EditorState :=
  match rev (undoStack s) with
  | [] => s
  | previousEntry :: _ =>
      let currentEntry :=
        mkHistoryEntry (innerHTML s) (getCursorPosition windowSelection) in
      mkEditorState (html previousEntry) (removelast (undoStack s))
        (redoStack s ++ [currentEntry]) true (lastSaveTime s) (debounceTimeout s)
  end.

Definition redo (windowSelection : option Range) (s : EditorState) : EditorState :=
  match rev (redoStack s) with
  | [] => s
  | nextEntry :: _ =>
      let currentEntry :=
        mkHistoryEntry (innerHTML s) (getCursorPosition windowSelection) in
      mkEditorState (html nextEntry) (undoStack s ++ [currentEntry])
        (removelast (redoStack s)) true (lastSaveTime s) (debounceTimeout s)
  end.

(** The zero-delay timer that [undo] and [redo] set. *)
Definition undoRedoSettled (s : EditorState) : EditorState :=
  mkEditorState (innerHTML s) (undoStack s) (redoStack s) false
    (lastSaveTime s) (debounceTimeout s).

(** [n] presses of undo in a row. *)
Fixpoint undoTimes (n : nat) (windowSelection : option Range) (s : EditorState)
  : EditorState :=
  match n with
  | O => s
  | S n' => undoTimes n' windowSelection (undo windowSelection s)
  end.



End History.

(* ================================================================== *)
(** ** The command engine ([useEditorCommands.ts])                      *)
(* ================================================================== *)

Module Commands.
Import DomRange Selection History.

Inductive InlineTag : Type := TagB | TagI | TagU | TagS.
Inductive BlockTag : Type := TagP | TagH1 | TagH2 | TagH3 | TagBLOCKQUOTE | TagPRE.
Inductive ListTag : Type := TagUL | TagOL.

Definition inlineTagName (t : InlineTag) : string :=
  match t with TagB => "B" | TagI => "I" | TagU => "U" | TagS => "S" end.

Definition blockTagName (t : BlockTag) : string :=
  match t with
  | TagP => "P" | TagH1 => "H1" | TagH2 => "H2" | TagH3 => "H3"
  | TagBLOCKQUOTE => "BLOCKQUOTE" | TagPRE => "PRE"
  end.

Definition listTagName (t : ListTag) : string :=
  match t with TagUL => "UL" | TagOL => "OL" end.

Definition listTagEqb (a b : ListTag) : bool :=
  match a, b with TagUL, TagUL => true | TagOL, TagOL => true | _, _ => false end.

Definition isSpan (tagName : string) : bool := String.eqb tagName "SPAN".

(** [Object.entries(style).forEach(([key, value]) => { if (value)
    el.style[key] = value })]. *)
Definition assignStyle (style : list (string * string)) (st : CSSStyleDeclaration)
  : CSSStyleDeclaration :=
  fold_left
    (fun st kv => if truthy (snd kv) then setProperty st (fst kv) (snd kv) else st)
    style st.

(** The first loop of [cleanupNestedSpans], at one node of the list that
    [querySelectorAll('span')] returned, in document order.  The node's
    parent is a span exactly when [parentIsSpan], and [parentStyle] is
    the style of that parent when the loop reaches the node.  A span
    under a span adds its [cssText] to the parent's and hands its
    children to the parent, where the loop meets them next; any other
    element stays and the loop goes on among its children.  The result
    is the parent's style afterwards and the nodes that stand where the
    node stood. *)
Fixpoint mergeSpans (parentIsSpan : bool) (parentStyle : CSSStyleDeclaration)
  (n : Node) : CSSStyleDeclaration * list Node :=
  match n with
  | Text _ => (parentStyle, [n])
  | Element tagName attrs st cs =>
      let among := fun (underSpan : bool) (start : CSSStyleDeclaration * list Node) =>
        fold_left
          (fun acc c =>
             let r := mergeSpans underSpan (fst acc) c in
             (fst r, snd acc ++ snd r))
          cs start in
      if isSpan tagName then
        if parentIsSpan then among true (setCssText (parentStyle ++ st), [])
        else
          let r := among true (st, []) in
          (parentStyle, [Element tagName attrs (fst r) (snd r)])
      else
        let r := among false (st, []) in
        (parentStyle, [Element tagName attrs st (snd r)])
  end.

(** The first loop over the children of a parent. *)
Definition mergeSpansAmong (parentIsSpan : bool) (parentStyle : CSSStyleDeclaration)
  (cs : list Node) : CSSStyleDeclaration * list Node :=
  fold_left
    (fun acc c =>
       let r := mergeSpans parentIsSpan (fst acc) c in
       (fst r, snd acc ++ snd r))
    cs (parentStyle, []).

(** [!span.textContent?.trim() && !span.querySelector('img')]. *)
Definition isEmptySpan (n : Node) : bool :=
  isElement n && isSpan (tagOf n)
  && negb (truthy (trim (textContent n))) && negb (hasDescendant "IMG" n).

(** The second loop: a span without text and without image goes, with
    all it holds; the loop goes on inside every node that stays. *)
Fixpoint removeEmptySpans (n : Node) : list Node :=
  match n with
  | Text _ => [n]
  | Element tagName attrs st cs =>
      if isEmptySpan n then []
      else [Element tagName attrs st (flat_map removeEmptySpans cs)]
  end.

(** [cleanupNestedSpans(element)]: both loops run over the descendants
    of [element], never over [element] itself. *)
Definition cleanupNestedSpans (element : Node) : Node :=
  match element with
  | Text _ => element
  | Element tagName attrs st cs =>
      let r := mergeSpansAmong (isSpan tagName) st cs in
      Element tagName attrs (fst r) (flat_map removeEmptySpans (snd r))
  end.

Definition isSpanElement (n : Node) : bool := isElement n && isSpan (tagOf n).

(** No span element of the subtree of [n] is the child of a span
    element of that subtree. *)
Fixpoint noSpanUnderSpan (n : Node) : bool :=
  match n with
  | Text _ => true
  | Element tagName _ _ cs =>
      forallb
        (fun c => negb (isSpan tagName && isSpanElement c) && noSpanUnderSpan c) cs
  end.

(** No span of the subtree of [n], [n] included, lacks both text and
    image. *)
Definition noEmptySpan (n : Node) : bool :=
  allElements (fun e => negb (isEmptySpan e)) n.

(** The span-merge invariant of a document. *)
Definition spanInvariant (content : list Node) : bool :=
  forallb (fun n => noSpanUnderSpan n && noEmptySpan n) content.

(** What the first loop establishes of the nodes it leaves under one
    parent: none has a span under a span, and none is itself a span when
    the parent is one. *)
Definition merged (parentIsSpan : bool) (l : list Node) : Prop :=
  Forall (fun c => noSpanUnderSpan c = true) l
  /\ (parentIsSpan = true -> Forall (fun c => isSpanElement c = false) l).

Definition wrapSelectionWithSpan (style : list (string * string))
  (now : Z) (windowSelection : option Range) (s : EditorState) : EditorState :=
  let content := innerHTML s in
  let sel := getSelection content windowSelection in
  match range sel with
  | None => s
  | Some r =>
      if isCollapsed sel then s
      else
        let s := saveHistory now windowSelection s in
        let target := findFontTarget content sel in
        match isFullBlock target, blockElement target with
        | true, Some (blockPath, _) =>
            setInnerHTML
              (replaceNode content blockPath
                 (fun el =>
                    match el with
                    | Element t a st cs => [Element t a (assignStyle style st) cs]
                    | Text _ => [el]
                    end))
              s
        | _, _ =>
            let contents := extractContents content r in
            let span := Element "SPAN" [] (assignStyle style []) (fragment contents) in
            setInnerHTML
              (insertNode (childrenOf (remaining contents))
                 (newContainer contents) (newOffset contents)
                 [cleanupNestedSpans span])
              s
        end
  end.

Definition formatActive (tagName : InlineTag) (formats : Formats) : bool :=
  match tagName with
  | TagB => bold formats
  | TagI => italic formats
  | TagU => underline formats
  | TagS => strike formats
  end.

(** The tags [toggleInlineStyle] unwraps for each style. *)
Definition formattingTag (tagName : InlineTag) (tag : string) : bool :=
  match tagName with
  | TagB => String.eqb tag "B" || String.eqb tag "STRONG"
  | TagI => String.eqb tag "I" || String.eqb tag "EM"
  | TagU => String.eqb tag "U"
  | TagS => String.eqb tag "S" || String.eqb tag "STRIKE"
  end.

Definition toggleInlineStyle (tagName : InlineTag)
  (now : Z) (windowSelection : option Range) (s : EditorState) : EditorState :=
  let content := innerHTML s in
  let sel := getSelection content windowSelection in
  match range sel with
  | None => s
  | Some r =>
      if isCollapsed sel then s
      else
        let s := saveHistory now windowSelection s in
        let formats := getActiveFormats content windowSelection in
        if formatActive tagName formats then
          match find (fun qn => isElement (snd qn) && formattingTag tagName (tagOf (snd qn)))
                  (ancestors content (startContainer r)) with
          | Some (q, _) => setInnerHTML (replaceNode content q childrenOf) s
          | None => s
          end
        else
          let contents := extractContents content r in
          let wrapper := Element (inlineTagName tagName) [] [] (fragment contents) in
          setInnerHTML
            (insertNode (childrenOf (remaining contents))
               (newContainer contents) (newOffset contents) [wrapper])
            s
  end.

Definition BR : Node := Element "BR" [] [] [].

Definition setBlockType (tagName : BlockTag)
  (now : Z) (windowSelection : option Range) (s : EditorState) : EditorState :=
  let content := innerHTML s in
  let sel := getSelection content windowSelection in
  match range sel with
  | None => s
  | Some r =>
      let s := saveHistory now windowSelection s in
      match findBlockParent content (selStartContainer sel) with
      | None =>
          let newBlock := Element (blockTagName tagName) [] [] [BR] in
          setInnerHTML
            (insertNode content (startContainer r) (DomRange.startOffset r) [newBlock]) s
      | Some (blockPath, _) =>
          setInnerHTML
            (replaceNode content blockPath
               (fun blockElement =>
                  [Element (blockTagName tagName) [] (styleOf blockElement)
                     (childrenOf blockElement)]))
            s
      end
  end.

(** [li.innerHTML = sel.range.toString() || '<br>'], for selected text
    that reads as plain text when parsed as markup. *)
Definition textOrBreak (selected : string) : list Node :=
  if truthy selected then [Text selected] else [BR].

Definition toggleList (listType : ListTag)
  (now : Z) (windowSelection : option Range) (s : EditorState) : EditorState :=
  let content := innerHTML s in
  let sel := getSelection content windowSelection in
  match range sel with
  | None => s
  | Some r =>
      let s := saveHistory now windowSelection s in
      let formats := getActiveFormats content windowSelection in
      let currentListType :=
        if unorderedList formats then Some TagUL
        else if orderedList formats then Some TagOL else None in
      match currentListType with
      | Some current =>
          if listTagEqb current listType then
            match findBlockParent content (selStartContainer sel) with
            | Some (itemPath, listItem) =>
                if String.eqb (tagOf listItem) "LI" then
                  setInnerHTML
                    (replaceNode content (removelast itemPath)
                       (fun list =>
                          map (fun item => Element "P" [] [] (childrenOf item))
                            (filter isElement (childrenOf list))))
                    s
                else s
            | None => s
            end
          else
            match find (fun qn => isElement (snd qn)
                                  && (String.eqb (tagOf (snd qn)) "UL"
                                      || String.eqb (tagOf (snd qn)) "OL"))
                    (ancestors content (startContainer r)) with
            | Some (q, _) =>
                setInnerHTML
                  (replaceNode content q
                     (fun el => [Element (listTagName listType) [] [] (childrenOf el)]))
                  s
            | None => s
            end
      | None =>
          match findBlockParent content (selStartContainer sel) with
          | Some (blockPath, _) =>
              setInnerHTML
                (replaceNode content blockPath
                   (fun blockElement =>
                      [Element (listTagName listType) [] []
                         [Element "LI" [] [] (childrenOf blockElement)]]))
                s
          | None =>
              let li := Element "LI" [] [] (textOrBreak (toString content r)) in
              let list := Element (listTagName listType) [] [] [li] in
              let deleted := extractContents content r in
              setInnerHTML
                (insertNode (childrenOf (remaining deleted))
                   (newContainer deleted) (newOffset deleted) [list])
                s
          end
      end
  end.

Definition insertLink (url : string)
  (now : Z) (windowSelection : option Range) (s : EditorState) : EditorState :=
  let content := innerHTML s in
  let sel := getSelection content windowSelection in
  match range sel with
  | None => s
  | Some r =>
      let s := saveHistory now windowSelection s in
      let text := if isCollapsed sel then url else toString content r in
      let deleted :=
        if isCollapsed sel
        then mkExtraction [] (editor content) (startContainer r) (DomRange.startOffset r)
        else extractContents content r in
      let link :=
        Element "A" [("href", url); ("target", "_blank"); ("rel", "noopener noreferrer")]
          [] (if truthy text then [Text text] else []) in
      setInnerHTML
        (insertNode (childrenOf (remaining deleted))
           (newContainer deleted) (newOffset deleted) [link])
        s
  end.

Definition removeLink
  (now : Z) (windowSelection : option Range) (s : EditorState) : EditorState :=
  let content := innerHTML s in
  let sel := getSelection content windowSelection in
  match range sel, selStartContainer sel with
  | Some _, Some start =>
      let s := saveHistory now windowSelection s in
      match find (fun qn => isElement (snd qn) && String.eqb (tagOf (snd qn)) "A")
              (ancestors content start) with
      | Some (q, _) =>
          setInnerHTML (replaceNode content q (fun link => [Text (textContent link)])) s
      | None => s
      end
  | _, _ => s
  end.

Definition setFontSize (size : string) := wrapSelectionWithSpan [("font-size", size)].
Definition setFontFamily (family : string) := wrapSelectionWithSpan [("font-family", family)].
Definition setTextColor (color : string) := wrapSelectionWithSpan [("color", color)].
Definition setBackgroundColor (color : string) :=
  wrapSelectionWithSpan [("background-color", color)].

Definition insertImage (src alt : string)
  (now : Z) (windowSelection : option Range) (s : EditorState) : EditorState :=
  let content := innerHTML s in
  let sel := getSelection content windowSelection in
  match range sel with
  | None => s
  | Some r =>
      let s := saveHistory now windowSelection s in
      let img :=
        Element "IMG"
          [("src", src); ("alt", alt); ("class", "max-w-full h-auto rounded-lg my-4");
           ("data-editor-image", "true")] [] [] in
      let p := Element "P" [] [] [img] in
      setInnerHTML
        (insertNode content (startContainer r) (DomRange.startOffset r) [p]) s
  end.

(** [handlePaste(e)]; [html] is [None] when the clipboard holds no
    markup, [text] is empty when it holds no plain text. *)
Definition handlePaste (html : option (list Node)) (text : string)
  (now : Z) (windowSelection : option Range) (s : EditorState) : EditorState :=
  let s := saveHistory now windowSelection s in
  match windowSelection with
  | None => s
  | Some r =>
      let content := innerHTML s in
      let deleted := extractContents content r in
      match html with
      | Some markup =>
          let sanitized := Sanitize.sanitizeHTML markup in
          setInnerHTML
            (insertNode (childrenOf (remaining deleted))
               (newContainer deleted) (newOffset deleted) sanitized)
            s
      | None =>
          if truthy text then
            setInnerHTML
              (insertNode (childrenOf (remaining deleted))
                 (newContainer deleted) (newOffset deleted) [Text text])
              s
          else setInnerHTML (childrenOf (remaining deleted)) s
      end
  end.

(** The operations of the command engine. *)
Inductive Command : Type :=
| ToggleInlineStyle (tagName : InlineTag)
| SetBlockType (tagName : BlockTag)
| ToggleList (listType : ListTag)
| InsertLink (url : string)
| RemoveLink
| SetFontSize (size : string)
| SetFontFamily (family : string)
| SetTextColor (color : string)
| SetBackgroundColor (color : string)
| InsertImage (src alt : string)
| HandlePaste (html : option (list Node)) (text : string).

Definition execute (c : Command)
  : Z -> option Range -> EditorState -> EditorState :=
  match c with
  | ToggleInlineStyle tagName => toggleInlineStyle tagName
  | SetBlockType tagName => setBlockType tagName
  | ToggleList listType => toggleList listType
  | InsertLink url => insertLink url
  | RemoveLink => removeLink
  | SetFontSize size => setFontSize size
  | SetFontFamily family => setFontFamily family
  | SetTextColor color => setTextColor color
  | SetBackgroundColor color => setBackgroundColor color
  | InsertImage src alt => insertImage src alt
  | HandlePaste html text => handlePaste html text
  end.

(** What reaches the editor: a command at a time and under a window
    selection, the trailing timer, undo and redo, and the zero-delay
    timer that ends a restore. *)
Inductive Event : Type :=
| Invoke (now : Z) (windowSelection : option Range) (c : Command)
| DebounceFires (now : Z) (windowSelection : option Range)
| Undo (windowSelection : option Range)
| Redo (windowSelection : option Range)
| UndoRedoSettled.

Definition step (s : EditorState) (e : Event) : EditorState :=
  match e with
  | Invoke now w c => execute c now w s
  | DebounceFires now w => debounceFires now w s
  | Undo w => undo w s
  | Redo w => redo w s
  | UndoRedoSettled => undoRedoSettled s
  end.

Definition run (events : list Event) (s : EditorState) : EditorState :=
  fold_left step events s.







(** Whether the command calls [saveHistory] under this selection. *)
Definition invokesSaveHistory (c : Command) (windowSelection : option Range) : bool :=
  match c, windowSelection with
  | HandlePaste _ _, _ => true
  | _, None => false
  | (ToggleInlineStyle _ | SetFontSize _ | SetFontFamily _
     | SetTextColor _ | SetBackgroundColor _), Some r => negb (collapsed r)
  | _, Some _ => true
  end.

(** Commands that all call [saveHistory], the first at least 50ms after
    [last] and each at least 50ms after the one before. *)
Fixpoint spacedFrom (last : Z) (events : list Event) : Prop :=
  match events with
  | [] => True
  | Invoke now w c :: rest =>
      (50 <= now - last)%Z /\ invokesSaveHistory c w = true /\ spacedFrom now rest
  | _ :: _ => False
  end.


End Commands.

(* ================================================================== *)
(** ** The two loops of [cleanupNestedSpans], turn by turn               *)
(* ================================================================== *)

(** [Commands.mergeSpans] and [Commands.removeEmptySpans] read each
    [forEach] of [cleanupNestedSpans] as one pass in document order.
    Here the loops run as they are written: over the static list that
    [querySelectorAll('span')] returned, one node identity after the
    other, each turn changing the tree that the next turn sees. *)
Module SpanLoop.
Import Commands.

(** A node with its identity. *)
Inductive Identified : Type :=
| IText (id : nat) (data : string)
| IElement (id : nat) (tagName : string) (attributes : list (string * string))
    (style : CSSStyleDeclaration) (childNodes : list Identified).

Definition idOf (n : Identified) : nat :=
  match n with IText i _ => i | IElement i _ _ _ _ => i end.

Definition childNodesOf (n : Identified) : list Identified :=
  match n with IText _ _ => [] | IElement _ _ _ _ cs => cs end.

Definition cssTextOf (n : Identified) : CSSStyleDeclaration :=
  match n with IText _ _ => [] | IElement _ _ _ st _ => st end.

Definition isSpanNode (n : Identified) : bool :=
  match n with IText _ _ => false | IElement _ t _ _ _ => isSpan t end.

(** Identities given in document order, from [next] on. *)
Fixpoint identify (next : nat) (n : Node) : nat * Identified :=
  match n with
  | Text d => (S next, IText next d)
  | Element t a st cs =>
      let r :=
        fold_left
          (fun acc c =>
             let rc := identify (fst acc) c in (fst rc, snd acc ++ [snd rc]))
          cs (S next, []) in
      (fst r, IElement next t a st (snd r))
  end.

Fixpoint forget (n : Identified) : Node :=
  match n with
  | IText _ d => Text d
  | IElement _ t a st cs => Element t a st (map forget cs)
  end.

(** [element.querySelectorAll('span')]: the span descendants, in
    document order. *)
Fixpoint querySelectorAllSpan (n : Identified) : list nat :=
  match n with
  | IText _ _ => []
  | IElement _ _ _ _ cs =>
      flat_map
        (fun c => (if isSpanNode c then [idOf c] else []) ++ querySelectorAllSpan c)
        cs
  end.

(** One turn of the first loop, for the span of identity [x]: where it
    is found under a [SPAN], the parent takes its [cssText] and its
    children, and the span goes. *)
Fixpoint mergeTurn (x : nat) (n : Identified) : Identified :=
  match n with
  | IText _ _ => n
  | IElement i t a st cs =>
      match find (fun c => Nat.eqb (idOf c) x) cs with
      | Some span =>
          if isSpan t then
            IElement i t a (setCssText (st ++ cssTextOf span))
              (flat_map (fun c => if Nat.eqb (idOf c) x then childNodesOf c else [c]) cs)
          else n
      | None => IElement i t a st (map (mergeTurn x) cs)
      end
  end.

(** One turn of the second loop: the span of identity [x] goes when it
    holds neither text nor image.  A span no longer in the tree is not
    found, and nothing changes. *)
Fixpoint removeTurn (x : nat) (n : Identified) : Identified :=
  match n with
  | IText _ _ => n
  | IElement i t a st cs =>
      match find (fun c => Nat.eqb (idOf c) x) cs with
      | Some span =>
          if isEmptySpan (forget span)
          then IElement i t a st (filter (fun c => negb (Nat.eqb (idOf c) x)) cs)
          else n
      | None => IElement i t a st (map (removeTurn x) cs)
      end
  end.

Definition cleanupNestedSpansLoop (element : Identified) : Identified :=
  let merged :=
    fold_left (fun el x => mergeTurn x el) (querySelectorAllSpan element) element in
  fold_left (fun el x => removeTurn x el) (querySelectorAllSpan merged) merged.

(** The identities of a subtree, in document order. *)
Fixpoint idsOf (n : Identified) : list nat :=
  match n with
  | IText i _ => [i]
  | IElement i _ _ _ cs => i :: flat_map idsOf cs
  end.

Definition idsOfList (cs : list Identified) : list nat := flat_map idsOf cs.

(** The number of nodes of a subtree. *)
Fixpoint sizeOf (n : Identified) : nat :=
  match n with
  | IText _ _ => 1
  | IElement _ _ _ _ cs => S (list_sum (map sizeOf cs))
  end.

Definition sizeOfList (cs : list Identified) : nat := list_sum (map sizeOf cs).

(** The span descendants of a parent whose children are [cs]. *)
Definition spansOfList (cs : list Identified) : list nat :=
  flat_map
    (fun c => (if isSpanNode c then [idOf c] else []) ++ querySelectorAllSpan c) cs.

(** What [Commands.mergeSpansAmong] does with one child. *)
Definition mergeStep (underSpan : bool) (acc : CSSStyleDeclaration * list Node) (c : Node)
  : CSSStyleDeclaration * list Node :=
  let r := mergeSpans underSpan (fst acc) c in (fst r, snd acc ++ snd r).

(** Induction over identified nodes, with the property known of every
    child. *)
Section IdentifiedInduction.
Variable P : Identified -> Prop.
Hypothesis HText : forall i d, P (IText i d).
Hypothesis HElement : forall i t a st cs, Forall P cs -> P (IElement i t a st cs).
Fixpoint Identified_nested_ind (n : Identified) : P n :=
  match n with
  | IText i d => HText i d
  | IElement i t a st cs =>
      HElement i t a st cs
        ((fix all (l : list Identified) : Forall P l :=
            match l with
            | [] => Forall_nil P
            | c :: l' => Forall_cons c (Identified_nested_ind c) (all l')
            end) cs)
  end.
End IdentifiedInduction.

(** Every element receives a style of its own, so that the order of the
    merges shows in the result. *)
Fixpoint stamp (n : Identified) : Identified :=
  match n with
  | IText _ _ => n
  | IElement i t a _ cs =>
      IElement i t a [(String (ascii_of_nat (65 + i)) "", "1px")] (map stamp cs)
  end.

Definition leaves : list Node := [Text "a"; Text " "; Element "IMG" [] [] []].

Definition upToTwo (pool : list Node) : list (list Node) :=
  [[]] ++ map (fun c => [c]) pool
  ++ flat_map (fun c => map (fun d => [c; d]) pool) pool.

(** A leaf, or a [SPAN] or [B] around at most two nodes of the pool. *)
Definition grow (pool : list Node) : list Node :=
  leaves
  ++ flat_map (fun cs => [Element "SPAN" [] [] cs; Element "B" [] [] cs]) (upToTwo pool).

(** A leaf, or a [SPAN] or [B] around one node of the pool. *)
Definition growOne (pool : list Node) : list Node :=
  leaves ++ flat_map (fun c => [Element "SPAN" [] [] [c]; Element "B" [] [] [c]]) pool.

(** 2775 spans to clean up: around every tree of depth two with at most
    two children per element, around every pair of trees of depth one,
    and around every chain of up to five elements. *)
Definition samples : list Identified :=
  map (fun n => stamp (snd (identify 0 n)))
    (map (fun c => Element "SPAN" [] [] [c]) (grow (grow leaves))
     ++ flat_map (fun c => map (fun d => Element "SPAN" [] [] [c; d]) (grow leaves))
          (grow leaves)
     ++ map (fun c => Element "SPAN" [] [] [c])
          (growOne (growOne (growOne (growOne (growOne leaves)))))).

End SpanLoop.

(* ================================================================== *)
(** ** Image resizing                                                   *)
(* ================================================================== *)

(** The resize handlers of the editor component ([RichTextEditor.tsx]). *)
Module RichTextEditor.
Local Open Scope Q_scope.

Record ResizeStartData : Type := mkResizeStartData {
  x : Q;
  y : Q;
  width : Q;
  height : Q;
  aspectRatio : Q
}.

(** [selectedImage] holds the [style.width] and [style.height] of the
    selected image, in pixels, once a handler has written them. *)
Record ResizeState : Type := mkResizeState {
  selectedImage : option (option (Q * Q));
  isResizing : bool;
  resizeStartData : option ResizeStartData
}.

(** [handleResizeMouseDown(e, corner)]; [rectWidth] and [rectHeight] are
    what [getBoundingClientRect] reports for the selected image. *)
Definition handleResizeMouseDown (clientX clientY : Q) (corner : string)
  (rectWidth rectHeight : Q) (st : ResizeState) : ResizeState :=
  match selectedImage st with
  | None => st
  | Some _ =>
      mkResizeState (selectedImage st) true
        (Some (mkResizeStartData clientX clientY rectWidth rectHeight
                 (rectWidth / rectHeight)))
  end.

(** The size [handleResizeMouseMove] computes from the gesture data. *)
Definition resizedSize (start : ResizeStartData) (clientX : Q) : Q * Q :=
  let deltaX := clientX - x start in
  let newWidth := width start + deltaX in
  let newWidth := Qmax 50 (Qmin 800 newWidth) in
  let newHeight := newWidth / aspectRatio start in
  (newWidth, newHeight).

Definition handleResizeMouseMove (clientX : Q) (st : ResizeState) : ResizeState :=
  match isResizing st, selectedImage st, resizeStartData st with
  | true, Some _, Some start =>
      mkResizeState (Some (Some (resizedSize start clientX))) (isResizing st)
        (resizeStartData st)
  | _, _, _ => st
  end.

Definition handleResizeMouseUp (st : ResizeState) : ResizeState :=
  if isResizing st then mkResizeState (selectedImage st) false None else st.

(** A whole drag: pointer down on a handle, one pointer move. *)
Definition drag (corner : string) (downX downY rectWidth rectHeight moveX : Q)
  (st : ResizeState) : ResizeState :=
  handleResizeMouseMove moveX
    (handleResizeMouseDown downX downY corner rectWidth rectHeight st).

End RichTextEditor.

(** The stand-alone image component ([ImageResizeWrapper.tsx]). *)
Module ImageResizeWrapper.
Local Open Scope Q_scope.

Record Point : Type := mkPoint { x : Q; y : Q }.
Record Size : Type := mkSize { width : Q; height : Q }.

(** [dimensions] is [None] while both sides are ['auto']. *)
Record WrapperState : Type := mkWrapperState {
  dimensions : option Size;
  isResizing : bool;
  aspectRatio : Q;
  startPos : Point;
  startDimensions : Size;
  resizeCorner : string
}.

(** [handleMouseDown(e, corner)]; [offsetWidth] and [offsetHeight] are
    those of the image. *)
Definition handleMouseDown (clientX clientY : Q) (corner : string)
  (offsetWidth offsetHeight : Q) (st : WrapperState) : WrapperState :=
  mkWrapperState (dimensions st) true (aspectRatio st)
    (mkPoint clientX clientY) (mkSize offsetWidth offsetHeight) corner.

(** The size [handleMouseMove] hands to [setDimensions]. *)
Definition resizedSize (st : WrapperState) (clientX clientY : Q) : Size :=
  let deltaX := clientX - x (startPos st) in
  let deltaY := clientY - y (startPos st) in
  let newWidth := width (startDimensions st) in
  let newHeight := height (startDimensions st) in
  let corner := resizeCorner st in
  let newWidth :=
    if strIncludes corner "right" then width (startDimensions st) + deltaX
    else if strIncludes corner "left" then width (startDimensions st) - deltaX
    else newWidth in
  let newHeight := newWidth / aspectRatio st in
  let newWidth := Qmax 50 newWidth in
  let newHeight := Qmax 50 newHeight in
  let newWidth := Qmin 800 newWidth in
  let newHeight := newWidth / aspectRatio st in
  mkSize newWidth newHeight.

Definition handleMouseMove (clientX clientY : Q) (st : WrapperState) : WrapperState :=
  if negb (isResizing st) then st
  else
    mkWrapperState (Some (resizedSize st clientX clientY)) (isResizing st)
      (aspectRatio st) (startPos st) (startDimensions st) (resizeCorner st).

End ImageResizeWrapper.

(** The four corner handles. *)
Definition corners : list string :=
  ["bottom-right"; "bottom-left"; "top-right"; "top-left"].

Definition rightEdge (corner : string) : bool := strIncludes corner "right".

(** The width the pointer asks for: the width at the start of the
    gesture, plus the horizontal travel on a right-edge handle, minus it
    on a left-edge handle. *)
Definition requestedWidth (corner : string) (startWidth deltaX : Q) : Q :=
  if rightEdge corner then (startWidth + deltaX)%Q else (startWidth - deltaX)%Q.

(** An image selected and at rest, and one in the stand-alone component
    with aspect ratio 2. *)
Definition selectedAtRest : RichTextEditor.ResizeState :=
  RichTextEditor.mkResizeState (Some None) false None.

Definition wrapperAtRest : ImageResizeWrapper.WrapperState :=
  ImageResizeWrapper.mkWrapperState None false 2%Q
    (ImageResizeWrapper.mkPoint 0%Q 0%Q) (ImageResizeWrapper.mkSize 0%Q 0%Q) "".

(** [Math.max(50, Math.min(800, w))]. *)
Definition clampWidth (w : Q) : Q := Qmax 50%Q (Qmin 800%Q w).

(* ================================================================== *)
(** ** The link dialog ([LinkModal.tsx])                                *)
(* ================================================================== *)

Module LinkModal.

(** [String.prototype.startsWith]. *)
Definition startsWith (s searchString : string) : bool := String.prefix searchString s.

(** [handleSubmit(e)] with [url] in the input field: the address handed
    to [onSubmit], [None] when the form does nothing. *)
Definition handleSubmit (url : string) : option string :=
  if truthy (trim url) then
    let finalUrl := trim url in
    let finalUrl :=
      if negb (startsWith finalUrl "http://") && negb (startsWith finalUrl "https://")
         && negb (startsWith finalUrl "mailto:")
      then ("https://" ++ finalUrl)%string
      else finalUrl in
    Some finalUrl
  else None.


End LinkModal.

(* ================================================================== *)
(** ** The imperative handle of the editor ([RichTextEditor.tsx])       *)
(* ================================================================== *)

Module EditorHandle.
Import DomRange History.

(** [getHTML()]. *)
Definition getHTML (s : EditorState) : list Node := innerHTML s.


(** [handleBlur()]. *)
Definition handleBlur (now : Z) (windowSelection : option Range) (s : EditorState)
  : EditorState :=
  saveHistory now windowSelection s.

End EditorHandle.


(* ================================================================== *)
(** ** Predicates of the statements                                     *)
(* ================================================================== *)

Module Marks.
Import DomRange Selection.






(** [q] leads to an ancestor of the node of path [p], or to that node. *)
Fixpoint isPrefixOf (q p : Path) : bool :=
  match q, p with
  | [], _ => true
  | i :: q', j :: p' => Nat.eqb i j && isPrefixOf q' p'
  | _ :: _, [] => false
  end.

(** An element with one of the block tags. *)
Definition isBlockElement (n : Node) : bool :=
  isElement n && includes BLOCK_ELEMENTS (tagOf n).

End Marks.

(* ================================================================== *)
(** ** Boundary points in tree order                                    *)
(* ================================================================== *)

Module RangeOrder.
Import DomRange.

(** The boundary point [(sp, so)] is not after the boundary point
    [(ep, eo)], both below [n]: the order the DOM keeps between the
    start and the end of every range. *)
Fixpoint startsBeforeEnd (sp : Path) (so : nat) (ep : Path) (eo : nat) (n : Node)
  : bool :=
  match n with
  | Text _ => Nat.leb so eo
  | Element _ _ _ cs =>
      match sp, ep with
      | [], [] => Nat.leb so eo
      | [], j :: _ => Nat.leb so j
      | i :: _, [] => Nat.ltb i eo
      | i :: sp', j :: ep' =>
          if Nat.eqb i j then
            match nth_error cs i with
            | Some c => startsBeforeEnd sp' so ep' eo c
            | None => true
            end
          else Nat.ltb i j
      end
  end.

(** A range of the document whose start is not after its end and,
    where it is collapsed, whose container is in the document. *)
Definition inOrder (content : list Node) (r : Range) : bool :=
  if collapsed r then
    match nodeAt (editor content) (startContainer r) with
    | Some _ => true
    | None => false
    end
  else
    startsBeforeEnd (startContainer r) (startOffset r)
      (endContainer r) (endOffset r) (editor content).


End RangeOrder.

(* ================================================================== *)
(** ** The toolbar ([Toolbar.tsx])                                      *)
(* ================================================================== *)

Module Toolbar.
Import Selection.

(** [FONT_FAMILIES]: label first, value second. *)
Definition FONT_FAMILIES : list (string * string) :=
  [("Default", "inherit");
   ("IBM Plex Sans", "IBM Plex Sans, sans-serif");
   ("Georgia", "Georgia, serif");
   ("Times New Roman", "Times New Roman, serif");
   ("Arial", "Arial, sans-serif");
   ("Verdana", "Verdana, sans-serif");
   ("Courier New", "Courier New, monospace");
   ("JetBrains Mono", "JetBrains Mono, monospace")].

(** [s.split(',')[0]]. *)
Fixpoint beforeComma (s : string) : string :=
  match s with
  | String c rest => if Ascii.eqb c ","%char then EmptyString else String c (beforeComma rest)
  | EmptyString => EmptyString
  end.

(** [getCurrentBlockLabel()]; [activeFormats] is what [getActiveFormats]
    returned last. *)
Definition getCurrentBlockLabel (activeFormats : Formats) : string :=
  match block activeFormats with
  | Some block =>
      if String.eqb block "h1" then "Heading 1"
      else if String.eqb block "h2" then "Heading 2"
      else if String.eqb block "h3" then "Heading 3"
      else if String.eqb block "blockquote" then "Quote"
      else if String.eqb block "pre" then "Code"
      else "Paragraph"
  | None => "Paragraph"
  end.

(** [getCurrentFontSize()]. *)
Definition getCurrentFontSize (activeFormats : Formats) : string :=
  match fontSize activeFormats with
  | Some size => if truthy size then size else "16px"
  | None => "16px"
  end.

(** [getCurrentFontFamily()]. *)
Definition getCurrentFontFamily (activeFormats : Formats) : string :=
  let family :=
    match fontFamily activeFormats with
    | Some family => family
    | None => ""
    end in
  match find (fun f => strIncludes family (beforeComma (snd f))) FONT_FAMILIES with
  | Some f => if truthy (fst f) then fst f else "Default"
  | None => "Default"
  end.

End Toolbar.

(* ================================================================== *)
(** ** The Enter key ([RichTextEditor.tsx], [handleKeyDown])            *)
(* ================================================================== *)

(** The branch of [handleKeyDown] for the Enter key without Ctrl or
    Meta.  Where the handler does not call [preventDefault], what the
    browser then does to the document is not part of the code. *)
Module EnterKey.
Import DomRange Selection History Commands.

Definition HEADINGS : list string := ["H1"; "H2"; "H3"].

(** [<p><br></p>]. *)
Definition emptyParagraph : Node := Element "P" [] [] [BR].

Record KeyResult : Type := mkKeyResult {
  state : EditorState;
  defaultPrevented : bool
}.


(** The node at which the walk of the plain Enter key stops: a heading,
    or a list item whose text is white space at most. *)
Definition stopsEnter (n : Node) : bool :=
  isElement n
  && (includes HEADINGS (tagOf n)
      || (String.eqb (tagOf n) "LI" && negb (truthy (trim (textContent n))))).

(** What stands in the place of the parent of the empty item of index
    [k]: under a [UL] or [OL], the list without the item and then the
    new paragraph, or the paragraph alone when the list has no element
    child left; any other parent stays as it is. *)
Definition exitList (k : nat) (parent : Node) : list Node :=
  match parent with
  | Element t a st cs =>
      if String.eqb t "UL" || String.eqb t "OL" then
        let rest := firstn k cs ++ skipn (S k) cs in
        if existsb isElement rest then [Element t a st rest; emptyParagraph]
        else [emptyParagraph]
      else [parent]
  | Text _ => [parent]
  end.

Definition handleEnter (now : Z) (windowSelection : option Range) (s : EditorState)
  : KeyResult :=
  let content := innerHTML s in
  match windowSelection with
  | None => mkKeyResult s false
  | Some r =>
      match find (fun qn => stopsEnter (snd qn)) (ancestors content (startContainer r)) with
      | None => mkKeyResult s false
      | Some (q, el) =>
          let s := saveHistory now windowSelection s in
          if includes HEADINGS (tagOf el) then
            mkKeyResult
              (setInnerHTML (replaceNode content q (fun el => [el; emptyParagraph])) s)
              true
          else
            mkKeyResult
              (setInnerHTML (replaceNode content (removelast q) (exitList (last q 0%nat))) s)
              true
      end
  end.

End EnterKey.

(* ================================================================== *)
(** ** Documents, selections and event sequences of the examples        *)
(* ================================================================== *)

Module Scenarios.
Import DomRange History Commands.

(** [<p>Hello</p>]. *)
Definition hello : list Node := [Element "P" [] [] [Text "Hello"]].

(** The five characters of [Hello] selected. *)
Definition wholeText : option Range := Some (mkRange [0; 0]%nat 0 [0; 0]%nat 5).

(** A caret before the first child of the editor element. *)
Definition atStart : option Range := Some (mkRange [] 0 [] 0).

(** [<p>a<span style="color: red">hello</span>b</p>]. *)
Definition redWord : list Node :=
  [Element "P" [] []
     [Text "a"; Element "SPAN" [] [("color", "red")] [Text "hello"]; Text "b"]].

(** The letters [ell] of the red word selected. *)
Definition insideRedWord : Range := mkRange [0; 1; 0]%nat 1 [0; 1; 0]%nat 4.



(** 101 image insertions, 50ms apart. *)
Definition manyImages : list Event :=
  map (fun i => Invoke (1000 + 50 * Z.of_nat i) atStart (InsertImage "a.png" ""))
    (seq 0 101).


(** Five formatting commands 10ms apart, then the trailing timer. *)
Definition burst10 : list Event :=
  [Invoke 1000 wholeText (SetTextColor "red");
   Invoke 1010 wholeText (SetFontSize "20px");
   Invoke 1020 wholeText (SetBackgroundColor "yellow");
   Invoke 1030 wholeText (SetFontFamily "serif");
   Invoke 1040 wholeText (SetTextColor "green")].

Definition burst10ThenTimer : list Event := burst10 ++ [DebounceFires 1090 wholeText].

End Scenarios.

(* ================================================================== *)
(** * Properties                                                        *)
(* ================================================================== *)

(* ------------------------------------------------------------------ *)
(** ** Sanitization                                                     *)
(* ------------------------------------------------------------------ *)

Section SanitizeFacts.
Import Sanitize.

Lemma includes_In (l : list string) (s : string) :
  includes l s = true <-> In s l.
Proof.
  unfold includes. rewrite existsb_exists. split.
  - intros [x [Hin Heq]]. apply String.eqb_eq in Heq. now subst.
  - intros Hin. exists s. split; [assumption | apply String.eqb_refl].
Qed.

(** Every element of a sanitized tree has an allowed tag: a replacement
    is a [P] or a [SPAN], anything else was allowed to begin with. *)
Lemma sanitizeChild_tags (n : Node) :
  allElements tagAllowed (sanitizeChild n) = true.
Proof.
  induction n as [d | t a st cs IH] using Node_nested_ind; [reflexivity |].
  assert (Hcs : forallb (allElements tagAllowed) (map sanitizeChild cs) = true).
  { rewrite forallb_forall. intros c Hc. apply in_map_iff in Hc.
    destruct Hc as [c0 [<- Hc0]]. rewrite Forall_forall in IH. now apply IH. }
  simpl. destruct (includes ALLOWED_TAGS t) eqn:Ht; simpl.
  - rewrite Hcs. unfold tagAllowed. simpl. now rewrite Ht.
  - destruct (includes blockTags t); simpl; now rewrite Hcs.
Qed.

(** Every element of a sanitized tree has allowed attributes only. *)
Lemma sanitizeChild_attrs (n : Node) :
  allElements attrsAllowed (sanitizeChild n) = true.
Proof.
  induction n as [d | t a st cs IH] using Node_nested_ind; [reflexivity |].
  assert (Hcs : forallb (allElements attrsAllowed) (map sanitizeChild cs) = true).
  { rewrite forallb_forall. intros c Hc. apply in_map_iff in Hc.
    destruct Hc as [c0 [<- Hc0]]. rewrite Forall_forall in IH. now apply IH. }
  simpl. destruct (includes ALLOWED_TAGS t) eqn:Ht; simpl.
  - rewrite Hcs, andb_true_r. unfold attrsAllowed. simpl.
    rewrite forallb_forall. intros x Hx. now apply filter_In in Hx.
  - destruct (includes blockTags t); simpl; now rewrite Hcs.
Qed.

Lemma setProperty_keys (st : CSSStyleDeclaration) (prop value : string) (l : list string) :
  In prop l ->
  Forall (fun d => In (fst d) l) st ->
  Forall (fun d => In (fst d) l) (setProperty st prop value).
Proof.
  intros Hp. induction st as [| [k v] rest IH]; intros Hst; simpl.
  - constructor; [assumption | constructor].
  - inversion Hst; subst. destruct (String.eqb k prop); constructor; auto.
Qed.

Lemma setCssText_keys (decls : list (string * string)) (l : list string) :
  Forall (fun d => In (fst d) l) decls ->
  Forall (fun d => In (fst d) l) (setCssText decls).
Proof.
  unfold setCssText. intros H.
  assert (G : forall acc, Forall (fun d => In (fst d) l) acc ->
              Forall (fun d => In (fst d) l)
                (fold_left (fun st d => setProperty st (fst d) (snd d)) decls acc)).
  { induction H as [| d ds Hd Hds IH]; intros acc Hacc; simpl; [assumption |].
    apply IH. now apply setProperty_keys. }
  apply G. constructor.
Qed.

Lemma styleObj_keys (st : CSSStyleDeclaration) :
  Forall (fun d => In (fst d) allowedStyles) (styleObj st).
Proof.
  unfold styleObj.
  assert (G : forall (props : list string) acc,
              incl props allowedStyles ->
              Forall (fun d => In (fst d) allowedStyles) acc ->
              Forall (fun d => In (fst d) allowedStyles)
                (fold_left
                   (fun obj prop =>
                      if truthy (getPropertyValue st prop)
                      then setProperty obj prop (getPropertyValue st prop) else obj)
                   props acc)).
  { induction props as [| p ps IH]; intros acc Hin Hacc; simpl; [assumption |].
    apply IH; [intros x Hx; apply Hin; now right |].
    destruct (truthy (getPropertyValue st p)); [| assumption].
    apply setProperty_keys; [apply Hin; now left | assumption]. }
  specialize (G allowedStyles [] (incl_refl _) (Forall_nil _)).
  destruct (truthy (getPropertyValue st "text-align")); [| exact G].
  apply setProperty_keys; [| exact G].
  apply includes_In. reflexivity.
Qed.

(** An element that passes through keeps allowed style properties only. *)
Lemma sanitizeStyle_allowed (st : CSSStyleDeclaration) :
  forallb (fun d => includes allowedStyles (fst d)) (sanitizeStyle st) = true.
Proof.
  rewrite forallb_forall. intros d Hd. apply includes_In.
  destruct st as [| d0 st']; [inversion Hd |].
  unfold sanitizeStyle in Hd.
  pose proof (setCssText_keys _ _ (styleObj_keys (d0 :: st'))) as H.
  rewrite Forall_forall in H. now apply H.
Qed.

(** On a tree in which no element is replaced, the whole whitelist
    holds of the result. *)
Lemma sanitizeChild_whitelisted (n : Node) :
  allElements tagAllowed n = true ->
  allElements whitelisted (sanitizeChild n) = true.
Proof.
  induction n as [d | t a st cs IH] using Node_nested_ind; [reflexivity |].
  simpl. intros H. apply andb_true_iff in H. destruct H as [Ht Hcs].
  unfold tagAllowed in Ht. simpl in Ht. rewrite Ht. simpl.
  apply andb_true_iff. split.
  - unfold whitelisted, tagAllowed, attrsAllowed, stylesAllowed. simpl.
    rewrite Ht, sanitizeStyle_allowed, andb_true_r. simpl.
    rewrite forallb_forall. intros x Hx. now apply filter_In in Hx.
  - rewrite forallb_forall. intros c Hc. apply in_map_iff in Hc.
    destruct Hc as [c0 [<- Hc0]]. rewrite Forall_forall in IH.
    apply IH; [assumption |]. rewrite forallb_forall in Hcs. now apply Hcs.
Qed.





Section KeptDeclarations.
Variable st : CSSStyleDeclaration.






End KeptDeclarations.









(** A [SECTION], a block tag outside the allowed tags, becomes a
    paragraph with the same children and the same style. *)
Example sanitizeHTML_section :
  sanitizeHTML [Element "SECTION" [("id", "intro")] [("color", "red")] [Text "Hi"]]
  = [Element "P" [] [("color", "red")] [Text "Hi"]].
Proof. reflexivity. Qed.

(** An element of an unknown inline kind becomes a span. *)
Example sanitizeHTML_font :
  sanitizeHTML [Element "FONT" [("face", "Arial")] [] [Text "Hi"]]
  = [Element "SPAN" [] [] [Text "Hi"]].
Proof. reflexivity. Qed.

(** C3.  Sanitization is a total function, and its result uses allowed
    tags and allowed attributes only, but not allowed style properties
    only: the paragraph that replaces
    [<section style="position: fixed">Hi</section>] keeps [position],
    which is no allowed style property, because the replacement receives
    the whole [cssText] and the recursive call visits its children only. *)
Theorem sanitizeHTML_replacement_keeps_style :
  sanitizeHTML [Element "SECTION" [] [("position", "fixed")] [Text "Hi"]]
  = [Element "P" [] [("position", "fixed")] [Text "Hi"]]
  /\ forallb (allElements whitelisted)
       (sanitizeHTML [Element "SECTION" [] [("position", "fixed")] [Text "Hi"]])
     = false.
Proof. split; reflexivity. Qed.

(** C5.  Sanitization is not idempotent: a second pass over the
    paragraph that replaced [<section style="position: fixed">Hi</section>]
    finds an allowed tag and filters the style that the first pass
    copied. *)
Theorem sanitizeHTML_second_pass_differs :
  sanitizeHTML
    (sanitizeHTML [Element "SECTION" [] [("position", "fixed")] [Text "Hi"]])
  <> sanitizeHTML [Element "SECTION" [] [("position", "fixed")] [Text "Hi"]].
Proof. vm_compute. discriminate. Qed.

(** C6.  [<div style="color:red">Hi</div>] comes out of sanitization as
    the same [div]: [DIV] is one of the allowed tags, so the branch that
    would make a paragraph of it is never taken. *)
Theorem sanitizeHTML_div_stays :
  sanitizeHTML [Element "DIV" [] [("color", "red")] [Text "Hi"]]
  = [Element "DIV" [] [("color", "red")] [Text "Hi"]]
  /\ sanitizeHTML [Element "DIV" [] [("color", "red")] [Text "Hi"]]
     <> [Element "P" [] [("color", "red")] [Text "Hi"]].
Proof. split; [reflexivity | vm_compute; discriminate]. Qed.

End SanitizeFacts.

(* ------------------------------------------------------------------ *)
(** ** Active formats                                                   *)
(* ------------------------------------------------------------------ *)

Section ActiveFormats.
Import DomRange Selection.

(** A turn of the first loop overwrites a scalar attribute exactly when
    the node defines it. *)
Lemma formatsStep_scalar (k : Scalar) (formats : Formats) (n : Node) :
  scalarOf k (formatsStep formats n)
  = match defines k n with
    | Some v => Some v
    | None => scalarOf k formats
    end.
Proof.
  destruct n as [d | t a st cs]; [destruct k; reflexivity |].
  destruct k; unfold defines; cbn [isElement negb tagOf styleOf attributesOf];
    cbn [formatsStep scalarOf link fontSize fontFamily color backgroundColor block];
    match goal with |- context [if ?b then Some _ else _] => destruct b end;
    reflexivity.
Qed.

(** The second loop leaves the scalar attributes alone. *)
Lemma listStep_scalar (k : Scalar) (formats : Formats) (n : Node) :
  scalarOf k (listStep formats n) = scalarOf k formats.
Proof. destruct n; destruct k; reflexivity. Qed.

Lemma fold_listStep_scalar (k : Scalar) (l : list Node) (formats : Formats) :
  scalarOf k (fold_left listStep l formats) = scalarOf k formats.
Proof.
  revert formats. induction l as [| n l IH]; intros formats; simpl; [reflexivity |].
  now rewrite IH, listStep_scalar.
Qed.




End ActiveFormats.

(* ------------------------------------------------------------------ *)
(** ** Preconditions of the commands                                    *)
(* ------------------------------------------------------------------ *)

Section Preconditions.
Import DomRange Selection History Commands.

(** C10.  Under a collapsed selection (a caret), [toggleInlineStyle] and
    [wrapSelectionWithSpan], and with the latter the font size, font
    family, text colour and background colour commands, return at once:
    the document and the history are as before. *)
Theorem collapsed_selection_is_noop
  (now : Z) (r : Range) (s : EditorState) :
  collapsed r = true ->
  (forall tagName, toggleInlineStyle tagName now (Some r) s = s)
  /\ (forall style, wrapSelectionWithSpan style now (Some r) s = s)
  /\ (forall v, setFontSize v now (Some r) s = s
                /\ setFontFamily v now (Some r) s = s
                /\ setTextColor v now (Some r) s = s
                /\ setBackgroundColor v now (Some r) s = s).
Proof.
  intros Hc.
  assert (Hw : forall style, wrapSelectionWithSpan style now (Some r) s = s).
  { intros style. unfold wrapSelectionWithSpan.
    cbn [getSelection range isCollapsed]. now rewrite Hc. }
  split; [| split; [exact Hw | intros v; repeat split; apply Hw]].
  intros tagName. unfold toggleInlineStyle.
  cbn [getSelection range isCollapsed]. now rewrite Hc.
Qed.

(** A caret after [He] in [<p>Hello</p>]: the bold command does nothing. *)
Lemma collapsed_selection_is_noop_witness :
  toggleInlineStyle TagB 1000 (Some (mkRange [0; 0]%nat 2 [0; 0]%nat 2))
    (mount [Element "P" [] [] [Text "Hello"]])
  = mount [Element "P" [] [] [Text "Hello"]].
Proof.
  apply (collapsed_selection_is_noop 1000 (mkRange [0; 0]%nat 2 [0; 0]%nat 2)
           (mount [Element "P" [] [] [Text "Hello"]])).
  reflexivity.
Defined.

(** Without a range, every command but [handlePaste] returns at once. *)
Lemma missing_range_is_noop (c : Command) (now : Z) (s : EditorState) :
  (forall html text, c <> HandlePaste html text) ->
  execute c now None s = s.
Proof.
  intros Hc. destruct c as [| | | | | | | | | | markup pasted]; try reflexivity.
  now elim (Hc markup pasted).
Qed.

(** C9.  Without a range, [handlePaste] leaves the document alone but
    has already called [saveHistory]: the undo stack of a freshly
    mounted editor holds one entry afterwards.  The other commands look
    for the range first ([missing_range_is_noop]). *)
Theorem handlePaste_without_range_saves_history :
  let s := mount [Element "P" [] [] [Text "Hello"]] in
  let s' := execute (HandlePaste None "pasted") 1000 None s in
  innerHTML s' = innerHTML s
  /\ undoStack s = []
  /\ undoStack s' = [mkHistoryEntry [Element "P" [] [] [Text "Hello"]] None].
Proof. repeat split; reflexivity. Qed.

End Preconditions.

(* ------------------------------------------------------------------ *)
(** ** History                                                          *)
(* ------------------------------------------------------------------ *)

Section HistoryFacts.
Import DomRange Selection History Commands Scenarios.

Lemma setInnerHTML_same (s : EditorState) : setInnerHTML (innerHTML s) s = s.
Proof. now destruct s. Qed.

Ltac split_matches :=
  repeat match goal with
    | |- context [match ?x with _ => _ end] => destruct x
    end.

Ltac close_saved s1 :=
  first [ eexists; reflexivity
        | exists (innerHTML s1); symmetry; apply setInnerHTML_same ].

(** A command that calls [saveHistory] does so first and then touches
    nothing but the document. *)
Lemma execute_saves (c : Command) (now : Z) (w : option Range) (s : EditorState) :
  invokesSaveHistory c w = true ->
  exists content', execute c now w s = setInnerHTML content' (saveHistory now w s).
Proof.
  intros H.
  destruct c; destruct w as [r |]; try discriminate H; cbn [invokesSaveHistory] in H;
    cbn [execute];
    unfold setFontSize, setFontFamily, setTextColor, setBackgroundColor,
      wrapSelectionWithSpan, toggleInlineStyle, setBlockType, toggleList,
      insertLink, removeLink, insertImage, handlePaste;
    cbn [getSelection range isCollapsed selStartContainer]; cbv zeta;
    try (apply negb_true_iff in H; rewrite H);
    set (s1 := saveHistory now _ s); clearbody s1;
    split_matches; close_saved s1.
Qed.

(** A command that does not call [saveHistory] does nothing. *)
Lemma execute_noop (c : Command) (now : Z) (w : option Range) (s : EditorState) :
  invokesSaveHistory c w = false -> execute c now w s = s.
Proof.
  intros H.
  destruct c; destruct w as [r |]; try discriminate H; try reflexivity;
    cbn [invokesSaveHistory] in H; apply negb_false_iff in H;
    cbn [execute];
    unfold setFontSize, setFontFamily, setTextColor, setBackgroundColor,
      wrapSelectionWithSpan, toggleInlineStyle;
    cbn [getSelection range isCollapsed]; now rewrite H.
Qed.

Lemma pushCapped_below (prev : list HistoryEntry) (entry : HistoryEntry) :
  List.length prev < MAX_HISTORY_SIZE -> pushCapped prev entry = prev ++ [entry].
Proof.
  intros H. unfold pushCapped.
  destruct (Nat.ltb_spec MAX_HISTORY_SIZE (List.length (prev ++ [entry]))) as [Hlt | Hge];
    [| reflexivity].
  rewrite length_app in Hlt. unfold MAX_HISTORY_SIZE in *. simpl in Hlt. lia.
Qed.


Lemma undo_top (w : option Range) (s : EditorState)
  (below : list HistoryEntry) (top : HistoryEntry) :
  undoStack s = below ++ [top] ->
  innerHTML (undo w s) = html top /\ undoStack (undo w s) = below.
Proof.
  intros H. unfold undo. rewrite H, rev_app_distr. simpl.
  now rewrite removelast_last.
Qed.











(** Commands spaced by 50ms or more push one entry each, the first of
    them the content they started from. *)
Lemma run_spaced (events : list Event) :
  forall s : EditorState,
    isUndoRedoing s = false ->
    spacedFrom (lastSaveTime s) events ->
    List.length (undoStack s) + List.length events <= MAX_HISTORY_SIZE ->
    exists entries,
      undoStack (run events s) = undoStack s ++ entries
      /\ List.length entries = List.length events
      /\ (forall e rest, entries = e :: rest -> html e = innerHTML s).
Proof.
  induction events as [| ev events IH]; intros s Hu Hsp Hlen.
  - exists []. rewrite app_nil_r. repeat split. intros e rest H. discriminate H.
  - destruct ev as [now w c | now w | w | w |]; try (destruct Hsp; fail).
    destruct Hsp as [Hnow [Hinv Hrest]].
    change (run (Invoke now w c :: events) s) with (run events (execute c now w s)).
    destruct (execute_saves c now w s Hinv) as [content' ->].
    assert (Hsave : saveHistory now w s
                    = mkEditorState (innerHTML s)
                        (undoStack s ++ [mkHistoryEntry (innerHTML s) (getCursorPosition w)])
                        [] false now (debounceTimeout s)).
    { unfold saveHistory. rewrite Hu.
      destruct (Z.ltb_spec (now - lastSaveTime s) 50); [lia |].
      rewrite pushCapped_below; [reflexivity |]. cbn [List.length] in Hlen. lia. }
    rewrite Hsave.
    destruct (IH (setInnerHTML content'
                    (mkEditorState (innerHTML s)
                       (undoStack s
                        ++ [mkHistoryEntry (innerHTML s) (getCursorPosition w)])
                       [] false now (debounceTimeout s))))
      as [entries [Hstack [Hcount _]]].
    + reflexivity.
    + exact Hrest.
    + cbn [setInnerHTML undoStack]. rewrite length_app. cbn [List.length] in *. lia.
    + exists (mkHistoryEntry (innerHTML s) (getCursorPosition w) :: entries).
      split; [| split].
      * rewrite Hstack. cbn [setInnerHTML undoStack]. now rewrite <- app_assoc.
      * cbn [List.length]. now rewrite Hcount.
      * intros e rest H. injection H as <- _. reflexivity.
Qed.

(** As many presses of undo as there are entries on top of [below]
    bring back the lowest of them. *)
Lemma undoTimes_pops (w : option Range) (entries : list HistoryEntry) :
  forall (s : EditorState) (below : list HistoryEntry) (e : HistoryEntry)
         (rest : list HistoryEntry),
    entries = e :: rest ->
    undoStack s = below ++ entries ->
    innerHTML (undoTimes (List.length entries) w s) = html e.
Proof.
  induction entries as [| top entries IH] using rev_ind;
    intros s below e rest Hentries Hstack; [discriminate Hentries |].
  rewrite length_app, Nat.add_comm. cbn [List.length Nat.add undoTimes].
  rewrite app_assoc in Hstack.
  destruct (undo_top w s (below ++ entries) top Hstack) as [Hhtml Hbelow].
  destruct entries as [| e' entries'].
  - cbn [List.length undoTimes]. rewrite Hhtml.
    cbn [app] in Hentries. now injection Hentries as <- _.
  - cbn [app] in Hentries. injection Hentries as <- Hrest.
    now apply (IH _ below e' entries').
Qed.

(** The undo law in mid-session: when every command is spaced by 50ms
    or more, so that each save pushes, and the stack has room for the
    new entries, as many presses of undo as there were commands restore
    the content the commands started from. *)
Lemma undo_restores_content_when_spaced
  (s : EditorState) (events : list Event) (w : option Range) :
  isUndoRedoing s = false ->
  spacedFrom (lastSaveTime s) events ->
  List.length (undoStack s) + List.length events <= MAX_HISTORY_SIZE ->
  innerHTML (undoTimes (List.length events) w (run events s)) = innerHTML s.
Proof.
  intros Hu Hsp Hlen.
  destruct (run_spaced events s Hu Hsp Hlen) as [entries [Hstack [Hcount Hfirst]]].
  destruct entries as [| e rest].
  - destruct events; [reflexivity | discriminate Hcount].
  - rewrite <- Hcount, <- (Hfirst e rest eq_refl).
    now apply (undoTimes_pops w (e :: rest) _ (undoStack s) e rest).
Qed.





(** When the trailing timer of a burst fires, it pushes the content as
    it is after the burst: the stack then holds two entries for the
    burst, and the first press of undo changes nothing. *)
Example burst_then_timer :
  List.length (undoStack (run burst10ThenTimer (mount hello))) = 2
  /\ innerHTML (undo None (run burst10ThenTimer (mount hello)))
     = innerHTML (run burst10ThenTimer (mount hello)).
Proof. split; reflexivity. Qed.

End HistoryFacts.

(* ------------------------------------------------------------------ *)
(** ** Span styling                                                     *)
(* ------------------------------------------------------------------ *)

Section SpanFacts.
Import DomRange Selection History Commands Scenarios.

Lemma append_empty_r (s : string) : (s ++ "")%string = s.
Proof. induction s as [| c s IH]; simpl; [reflexivity | now rewrite IH]. Qed.

Lemma allSpace_app (a b : string) :
  allSpace (a ++ b)%string = allSpace a && allSpace b.
Proof.
  induction a as [| c a IH]; simpl; [reflexivity |].
  now rewrite IH, andb_assoc.
Qed.

Lemma allSpace_trimStart (s : string) : allSpace (trimStart s) = allSpace s.
Proof.
  induction s as [| c s IH]; simpl; [reflexivity |].
  destruct (isSpace c) eqn:Hc; simpl; [exact IH | now rewrite Hc].
Qed.

(** A string trims to nothing exactly when it is all white space. *)
Lemma truthy_trim (s : string) : truthy (trim s) = negb (allSpace s).
Proof.
  unfold trim. rewrite <- (allSpace_trimStart s).
  destruct (trimStart s) as [| c rest]; [reflexivity |].
  cbn [trimEnd]. now destruct (allSpace (String c rest)).
Qed.

Lemma textContentOfList_app (l1 l2 : list Node) :
  textContentOfList (l1 ++ l2)
  = (textContentOfList l1 ++ textContentOfList l2)%string.
Proof.
  unfold textContentOfList. induction l1 as [| c l1 IH]; simpl; [reflexivity |].
  rewrite IH. induction (textContent c) as [| ch t IHt]; simpl; [reflexivity |].
  now rewrite IHt.
Qed.

Lemma textContent_Element t a st cs :
  textContent (Element t a st cs) = textContentOfList cs.
Proof. reflexivity. Qed.








Lemma mergeSpans_Element pis ps t a st cs :
  mergeSpans pis ps (Element t a st cs)
  = if isSpan t then
      if pis then mergeSpansAmong true (setCssText (ps ++ st)) cs
      else (ps, [Element t a (fst (mergeSpansAmong true st cs))
                   (snd (mergeSpansAmong true st cs))])
    else (ps, [Element t a st (snd (mergeSpansAmong false st cs))]).
Proof. reflexivity. Qed.











(** Whether spans are nested or empty does not depend on styles. *)
Lemma shape_textContent (n : Node) : textContent (shape n) = textContent n.
Proof.
  induction n as [d | t a st cs IH] using Node_nested_ind; [reflexivity |].
  cbn [shape textContent]. induction IH as [| c cs Hc Hcs IHcs]; [reflexivity |].
  cbn [map fold_right]. now rewrite Hc, IHcs.
Qed.

Lemma shape_isElement (n : Node) :
  isElement (shape n) = isElement n /\ tagOf (shape n) = tagOf n.
Proof. destruct n; split; reflexivity. Qed.

Lemma shape_hasDescendant (tag : string) (n : Node) :
  hasDescendant tag (shape n) = hasDescendant tag n.
Proof.
  induction n as [d | t a st cs IH] using Node_nested_ind; [reflexivity |].
  cbn [shape hasDescendant]. induction IH as [| c cs Hc Hcs IHcs]; [reflexivity |].
  cbn [map existsb]. destruct (shape_isElement c) as [-> ->]. now rewrite Hc, IHcs.
Qed.

Lemma shape_isEmptySpan (n : Node) : isEmptySpan (shape n) = isEmptySpan n.
Proof.
  unfold isEmptySpan. destruct (shape_isElement n) as [-> ->].
  now rewrite shape_textContent, shape_hasDescendant.
Qed.

Lemma shape_isSpanElement (n : Node) : isSpanElement (shape n) = isSpanElement n.
Proof. unfold isSpanElement. now destruct (shape_isElement n) as [-> ->]. Qed.

Lemma shape_noSpanUnderSpan (n : Node) :
  noSpanUnderSpan (shape n) = noSpanUnderSpan n.
Proof.
  induction n as [d | t a st cs IH] using Node_nested_ind; [reflexivity |].
  cbn [shape noSpanUnderSpan]. induction IH as [| c cs Hc Hcs IHcs]; [reflexivity |].
  cbn [map forallb]. now rewrite shape_isSpanElement, Hc, IHcs.
Qed.

Lemma shape_noEmptySpan (n : Node) : noEmptySpan (shape n) = noEmptySpan n.
Proof.
  unfold noEmptySpan.
  induction n as [d | t a st cs IH] using Node_nested_ind; [reflexivity |].
  change (shape (Element t a st cs)) with (Element t a [] (map shape cs)).
  cbn [allElements].
  change (Element t a [] (map shape cs)) with (shape (Element t a st cs)).
  rewrite shape_isEmptySpan. f_equal.
  induction IH as [| c cs Hc Hcs IHcs]; [reflexivity |].
  cbn [map forallb]. now rewrite Hc, IHcs.
Qed.

Lemma shape_spanInvariant (content : list Node) :
  spanInvariant (map shape content) = spanInvariant content.
Proof.
  unfold spanInvariant. induction content as [| n content IH]; [reflexivity |].
  cbn [map forallb]. now rewrite shape_noSpanUnderSpan, shape_noEmptySpan, IH.
Qed.

Lemma nth_error_split_list {A : Type} (l : list A) (i : nat) (x : A) :
  nth_error l i = Some x -> firstn i l ++ x :: skipn (S i) l = l.
Proof.
  revert i. induction l as [| y l IH]; intros [| i] H; try discriminate H.
  - injection H as ->. reflexivity.
  - cbn [firstn skipn app]. f_equal. now apply IH.
Qed.

(** Replacing a node by one of the same shape keeps the shape of the
    whole. *)
Lemma replaceAt_shape (f : Node -> list Node) :
  (forall el, map shape (f el) = [shape el]) ->
  forall (p : Path) (n : Node), map shape (replaceAt p f n) = [shape n].
Proof.
  intros Hf. induction p as [| i p IH]; intros n; [apply Hf |].
  destruct n as [d | t a st cs]; [reflexivity |].
  cbn [replaceAt]. destruct (nth_error cs i) as [c |] eqn:Hc; [| reflexivity].
  cbn [map shape]. rewrite !map_app, IH. cbn [app].
  rewrite <- (map_cons shape c), <- map_app. now rewrite (nth_error_split_list cs i c Hc).
Qed.

Lemma replaceNode_shape (f : Node -> list Node) (content : list Node) (p : Path) :
  (forall el, map shape (f el) = [shape el]) ->
  map shape (replaceNode content p f) = map shape content.
Proof.
  intros Hf. unfold replaceNode. destruct p as [| i p]; [reflexivity |].
  pose proof (replaceAt_shape f Hf (i :: p) (editor content)) as H.
  destruct (replaceAt (i :: p) f (editor content)) as [| [d | t a st cs] [| ? ?]];
    try reflexivity.
  cbn in H. now injection H.
Qed.

(** On a whole block the style goes onto the block: no span is made,
    and the document satisfies the span invariant exactly when it did
    before. *)
Lemma wrapSelectionWithSpan_whole_block
  (style : list (string * string)) (now : Z) (r : Range) (s : EditorState) :
  collapsed r = false ->
  isFullBlock (findFontTarget (innerHTML s) (getSelection (innerHTML s) (Some r)))
  = true ->
  spanInvariant (innerHTML (wrapSelectionWithSpan style now (Some r) s))
  = spanInvariant (innerHTML s).
Proof.
  intros Hc Hfull. unfold wrapSelectionWithSpan.
  cbn [range isCollapsed getSelection]. rewrite Hc. cbv zeta.
  unfold getSelection in Hfull. rewrite Hc in Hfull. rewrite Hfull.
  unfold findFontTarget in *. cbn [range isCollapsed commonAncestor] in *.
  destruct (findBlockParent (innerHTML s) (Some (commonAncestorContainer r)))
    as [[blockPath blockNode] |]; [| discriminate Hfull].
  cbn [blockElement isFullBlock] in *.
  cbn [innerHTML setInnerHTML].
  rewrite <- shape_spanInvariant, replaceNode_shape; [apply shape_spanInvariant |].
  intros [d | t a st cs]; reflexivity.
Qed.



(** The second scenario of the specification: the letters [ell] of
    [<p>Hello</p>] in red. *)
Example color_part_of_paragraph :
  innerHTML (setTextColor "red" 1000 (Some (mkRange [0; 0]%nat 1 [0; 0]%nat 4))
               (mount hello))
  = [Element "P" [] []
       [Text "H"; Element "SPAN" [] [("color", "red")] [Text "ell"]; Text "o"]].
Proof. reflexivity. Qed.

(** The clean-up on a span that holds nested, empty and image spans.
    The first loop merges the font-size span, then the red span it held,
    then the blank span and the image span into the root; the span under
    [B] stays and takes in the span below it.  The second loop removes
    the span that holds white space only. *)
Example cleanupNestedSpans_trace :
  cleanupNestedSpans
    (Element "SPAN" [] [("color", "blue")]
       [Element "SPAN" [] [("font-size", "10px")]
          [Text "a"; Element "SPAN" [] [("color", "red")] [Text "b"]];
        Element "B" [] []
          [Element "SPAN" [] [("font-family", "serif")]
             [Element "SPAN" [] [("width", "2px")] []; Text "c"]];
        Element "SPAN" [] [] [Text " "];
        Element "SPAN" [] [] [Element "IMG" [] [] []];
        Element "B" [] []
          [Element "SPAN" [] [("height", "3px")]
             [Element "SPAN" [] [("margin", "4px")] [Text " "]]]])
  = Element "SPAN" [] [("color", "red"); ("font-size", "10px")]
      [Text "a"; Text "b";
       Element "B" [] []
         [Element "SPAN" [] [("font-family", "serif"); ("width", "2px")] [Text "c"]];
       Text " "; Element "IMG" [] [] []; Element "B" [] [] []].
Proof. reflexivity. Qed.

(** The loops run turn by turn and the loops read as passes give the
    same span, on each of the 2775 samples. *)
Example cleanup_loops_agree :
  List.length SpanLoop.samples = 2775
  /\ map (fun t => SpanLoop.forget (SpanLoop.cleanupNestedSpansLoop t)) SpanLoop.samples
     = map (fun t => cleanupNestedSpans (SpanLoop.forget t)) SpanLoop.samples.
Proof. split; vm_compute; reflexivity. Qed.

(** The third scenario: a bullet list made of [<p>Hello</p>], and
    unmade. *)
Example list_on_and_off :
  innerHTML (toggleList TagUL 1000 wholeText (mount hello))
  = [Element "UL" [] [] [Element "LI" [] [] [Text "Hello"]]]
  /\ innerHTML
       (toggleList TagUL 2000 (Some (mkRange [0; 0; 0]%nat 0 [0; 0; 0]%nat 5))
          (toggleList TagUL 1000 wholeText (mount hello)))
     = hello.
Proof. split; reflexivity. Qed.

(** The first scenario: the whole text of the paragraph in red. *)
Example color_whole_paragraph :
  innerHTML (setTextColor "red" 1000 wholeText (mount hello))
  = [Element "P" [] [("color", "red")] [Text "Hello"]].
Proof. reflexivity. Qed.

(** Spans that the selection brings along are merged into the new one. *)
Example color_across_a_span :
  innerHTML (setFontSize "20px" 1000 (Some (mkRange [0; 0]%nat 0 [0; 2]%nat 0))
               (mount [Element "P" [] []
                         [Text "a";
                          Element "SPAN" [] [("color", "red")] [Text "hello"];
                          Text "b"; Text "c"]]))
  = [Element "P" [] []
       [Text "";
        Element "SPAN" [] [("font-size", "20px"); ("color", "red")]
          [Text "a"; Text "hello"; Text ""];
        Text "b"; Text "c"]].
Proof. reflexivity. Qed.


End SpanFacts.

(* ------------------------------------------------------------------ *)
(** ** The clean-up loops, turn by turn                                 *)
(* ------------------------------------------------------------------ *)

(** [cleanupNestedSpans] runs two loops over [querySelectorAll('span')],
    each turn changing the tree the later turns see.  [SpanLoop] follows
    the loops turn by turn, on nodes with identities; [Commands] reads
    each loop as one pass over the tree.  Both give the same tree. *)
Section SpanLoopFacts.
Import Commands SpanLoop.

(** *** The first loop, turn by turn *)

Lemma querySelectorAllSpan_Element i t a st cs :
  querySelectorAllSpan (IElement i t a st cs) = spansOfList cs.
Proof. reflexivity. Qed.

Lemma spansOfList_cons c cs :
  spansOfList (c :: cs)
  = (if isSpanNode c then [idOf c] else []) ++ querySelectorAllSpan c ++ spansOfList cs.
Proof. unfold spansOfList. cbn [flat_map]. now rewrite <- app_assoc. Qed.

Lemma spansOfList_app l1 l2 : spansOfList (l1 ++ l2) = spansOfList l1 ++ spansOfList l2.
Proof. unfold spansOfList. apply flat_map_app. Qed.

Lemma idsOfList_app l1 l2 : idsOfList (l1 ++ l2) = idsOfList l1 ++ idsOfList l2.
Proof. unfold idsOfList. apply flat_map_app. Qed.

Lemma idOf_in_idsOf (n : Identified) : In (idOf n) (idsOf n).
Proof. destruct n; now left. Qed.

Lemma root_in_idsOfList (c : Identified) (cs : list Identified) :
  In c cs -> In (idOf c) (idsOfList cs).
Proof.
  intros H. unfold idsOfList. apply in_flat_map. exists c. split; [assumption | apply idOf_in_idsOf].
Qed.

Lemma find_absent (x : nat) (cs : list Identified) :
  ~ In x (idsOfList cs) -> find (fun c => Nat.eqb (idOf c) x) cs = None.
Proof.
  intros H. induction cs as [| c cs IH]; [reflexivity |].
  cbn [find]. destruct (Nat.eqb_spec (idOf c) x) as [Heq | Hne].
  - exfalso. apply H. rewrite <- Heq. apply root_in_idsOfList. now left.
  - apply IH. intros Hin. apply H. unfold idsOfList in *. cbn [flat_map].
    apply in_or_app. now right.
Qed.

(** A turn for an identity that is not below the node changes nothing. *)
Lemma mergeTurn_absent (x : nat) (n : Identified) :
  ~ In x (idsOfList (childNodesOf n)) -> mergeTurn x n = n.
Proof.
  induction n as [i d | i t a st cs IH] using Identified_nested_ind; [reflexivity |].
  cbn [childNodesOf mergeTurn]. intros H. rewrite (find_absent x cs H). f_equal.
  induction IH as [| c cs Hc Hcs IHcs]; [reflexivity |].
  cbn [map]. unfold idsOfList in H. cbn [flat_map] in H. f_equal.
  - apply Hc. intros Hin. apply H. apply in_or_app. left.
    destruct c; [destruct Hin | now right].
  - apply IHcs. intros Hin. apply H. apply in_or_app. now right.
Qed.

Lemma mergeTurn_idOf (x : nat) (n : Identified) : idOf (mergeTurn x n) = idOf n.
Proof.
  destruct n as [i d | i t a st cs]; [reflexivity |].
  cbn [mergeTurn]. destruct (find _ cs); [destruct (isSpan t) |]; reflexivity.
Qed.

Lemma NoDup_app_disjoint {A : Type} (l1 l2 : list A) (x : A) :
  NoDup (l1 ++ l2) -> In x l1 -> ~ In x l2.
Proof.
  induction l1 as [| y l1 IH]; intros Hnd Hin; [destruct Hin |].
  cbn [app] in Hnd. inversion Hnd as [| ? ? Hy Hrest]; subst.
  destruct Hin as [-> | Hin].
  - intros H2. apply Hy. apply in_or_app. now right.
  - now apply IH.
Qed.

Lemma NoDup_app_incl {A : Type} (l1 l2 l1' l2' : list A) :
  NoDup (l1 ++ l2) -> incl l1' l1 -> incl l2' l2 -> NoDup l1' -> NoDup l2' ->
  NoDup (l1' ++ l2').
Proof.
  intros Hnd H1 H2 N1 N2. apply NoDup_app; [assumption | assumption |].
  intros x Hx Hx'. apply (NoDup_app_disjoint l1 l2 x Hnd); auto.
Qed.

Lemma find_here (j : nat) (done rest : list Identified) (c : Identified) :
  idOf c = j -> ~ In j (idsOfList done) ->
  find (fun c' => Nat.eqb (idOf c') j) (done ++ c :: rest) = Some c.
Proof.
  intros Hc Hdone. induction done as [| d done IH]; cbn [app find].
  - rewrite Hc, Nat.eqb_refl. reflexivity.
  - destruct (Nat.eqb_spec (idOf d) j) as [Heq | Hne].
    + exfalso. apply Hdone. rewrite <- Heq. apply root_in_idsOfList. now left.
    + apply IH. intros Hin. apply Hdone. unfold idsOfList in *. cbn [flat_map].
      apply in_or_app. now right.
Qed.

Lemma splice_absent (j : nat) (l : list Identified) :
  ~ In j (idsOfList l) ->
  flat_map (fun c' => if Nat.eqb (idOf c') j then childNodesOf c' else [c']) l = l.
Proof.
  intros H. induction l as [| d l IH]; [reflexivity |].
  cbn [flat_map]. destruct (Nat.eqb_spec (idOf d) j) as [Heq | Hne].
  - exfalso. apply H. rewrite <- Heq. apply root_in_idsOfList. now left.
  - cbn [app]. f_equal. apply IH. intros Hin. apply H. unfold idsOfList in *.
    cbn [flat_map]. apply in_or_app. now right.
Qed.

Lemma splice_here (j : nat) (done rest : list Identified) (c : Identified) :
  idOf c = j -> ~ In j (idsOfList done) -> ~ In j (idsOfList rest) ->
  flat_map (fun c' => if Nat.eqb (idOf c') j then childNodesOf c' else [c'])
    (done ++ c :: rest)
  = done ++ childNodesOf c ++ rest.
Proof.
  intros Hc Hdone Hrest. rewrite flat_map_app. cbn [flat_map].
  rewrite (splice_absent j done Hdone), (splice_absent j rest Hrest).
  now rewrite Hc, Nat.eqb_refl.
Qed.

Lemma idsOf_children_incl (c : Identified) (l : list Identified) :
  In c l -> incl (idsOfList (childNodesOf c)) (idsOfList l).
Proof.
  intros Hc x Hx. unfold idsOfList. apply in_flat_map. exists c. split; [assumption |].
  destruct c as [i d | i t a st cs]; [destruct Hx | now right].
Qed.

Lemma map_mergeTurn_absent (x : nat) (l : list Identified) :
  ~ In x (idsOfList l) -> map (mergeTurn x) l = l.
Proof.
  intros H. rewrite <- (map_id l) at 2. apply map_ext_in. intros c Hc.
  apply mergeTurn_absent. intros Hin. apply H.
  now apply (idsOf_children_incl c l Hc).
Qed.

Lemma find_app_none {A : Type} (f : A -> bool) (l1 l2 : list A) :
  find f l1 = None -> find f (l1 ++ l2) = find f l2.
Proof.
  induction l1 as [| y l1 IH]; [reflexivity |].
  cbn [find app]. destruct (f y); [discriminate | exact IH].
Qed.

(** A turn for a span below the child [c] acts inside [c]. *)
Lemma mergeTurn_inside (x i : nat) t a st (done rest : list Identified) (c : Identified) :
  x <> idOf c -> ~ In x (idsOfList done) -> ~ In x (idsOfList rest) ->
  mergeTurn x (IElement i t a st (done ++ c :: rest))
  = IElement i t a st (done ++ mergeTurn x c :: rest).
Proof.
  intros Hc Hdone Hrest. cbn [mergeTurn].
  rewrite (find_app_none _ done (c :: rest) (find_absent x done Hdone)).
  cbn [find]. destruct (Nat.eqb_spec (idOf c) x) as [Heq | _]; [now elim Hc |].
  rewrite (find_absent x rest Hrest).
  rewrite map_app. cbn [map].
  now rewrite (map_mergeTurn_absent x done Hdone), (map_mergeTurn_absent x rest Hrest).
Qed.

Lemma fold_mergeTurn_inside (i : nat) t a st (done rest : list Identified) (xs : list nat) :
  forall c : Identified,
    (forall x, In x xs -> x <> idOf c /\ ~ In x (idsOfList done) /\ ~ In x (idsOfList rest)) ->
    fold_left (fun el x => mergeTurn x el) xs (IElement i t a st (done ++ c :: rest))
    = IElement i t a st (done ++ fold_left (fun el x => mergeTurn x el) xs c :: rest).
Proof.
  induction xs as [| x xs IH]; intros c H; [reflexivity |].
  cbn [fold_left]. destruct (H x (or_introl eq_refl)) as [H1 [H2 H3]].
  rewrite mergeTurn_inside by assumption. apply IH.
  intros y Hy. rewrite mergeTurn_idOf. apply H. now right.
Qed.

(** The pass appends to the children it has already left. *)
Lemma mergeStep_shift (underSpan : bool) (cs : list Node) :
  forall (st : CSSStyleDeclaration) (acc : list Node),
    fold_left (mergeStep underSpan) cs (st, acc)
    = (fst (fold_left (mergeStep underSpan) cs (st, [])),
       acc ++ snd (fold_left (mergeStep underSpan) cs (st, []))).
Proof.
  induction cs as [| c cs IH]; intros st acc.
  - cbn. now rewrite app_nil_r.
  - cbn [fold_left].
    change (mergeStep underSpan (st, acc) c)
      with (fst (mergeSpans underSpan st c), acc ++ snd (mergeSpans underSpan st c)).
    change (mergeStep underSpan (st, []) c)
      with (fst (mergeSpans underSpan st c), snd (mergeSpans underSpan st c)).
    rewrite IH. rewrite (IH _ (snd (mergeSpans underSpan st c))).
    cbn [fst snd]. now rewrite app_assoc.
Qed.

Lemma mergeSpansAmong_fold (underSpan : bool) st cs :
  mergeSpansAmong underSpan st cs = fold_left (mergeStep underSpan) cs (st, []).
Proof. reflexivity. Qed.

Lemma spansOfList_incl (cs : list Identified) : incl (spansOfList cs) (idsOfList cs).
Proof.
  assert (H : forall n, incl (querySelectorAllSpan n) (idsOfList (childNodesOf n))).
  { induction n as [i d | i t a st cs' IH] using Identified_nested_ind;
      [intros x Hx; destruct Hx |].
    cbn [childNodesOf]. rewrite querySelectorAllSpan_Element.
    induction IH as [| c cs' Hc Hcs IHcs]; [intros x Hx; destruct Hx |].
    rewrite spansOfList_cons. intros x Hx. unfold idsOfList. cbn [flat_map].
    apply in_app_or in Hx. destruct Hx as [Hx | Hx].
    - apply in_or_app. left. destruct (isSpanNode c); [| destruct Hx].
      destruct Hx as [<- | []]. apply idOf_in_idsOf.
    - apply in_app_or in Hx. destruct Hx as [Hx | Hx].
      + apply in_or_app. left. apply Hc in Hx.
        destruct c; [destruct Hx | now right].
      + apply in_or_app. right. now apply IHcs. }
  induction cs as [| c cs IH]; [intros x Hx; destruct Hx |].
  rewrite spansOfList_cons. intros x Hx. unfold idsOfList. cbn [flat_map].
  apply in_app_or in Hx. destruct Hx as [Hx | Hx].
  - apply in_or_app. left. destruct (isSpanNode c); [| destruct Hx].
    destruct Hx as [<- | []]. apply idOf_in_idsOf.
  - apply in_app_or in Hx. destruct Hx as [Hx | Hx].
    + apply in_or_app. left. apply H in Hx. destruct c; [destruct Hx | now right].
    + apply in_or_app. right. now apply IH.
Qed.

Lemma sizeOf_pos (n : Identified) : 1 <= sizeOf n.
Proof. destruct n; cbn; lia. Qed.

Lemma sizeOfList_cons c cs : sizeOfList (c :: cs) = sizeOf c + sizeOfList cs.
Proof. reflexivity. Qed.

Lemma sizeOfList_app l1 l2 : sizeOfList (l1 ++ l2) = sizeOfList l1 + sizeOfList l2.
Proof. unfold sizeOfList. now rewrite map_app, list_sum_app. Qed.

Lemma idsOfList_cons c cs : idsOfList (c :: cs) = idsOf c ++ idsOfList cs.
Proof. reflexivity. Qed.

(** The first loop over the children [cs] of a parent, with the
    children [done] already gone through: the turns of the spans of [cs],
    in document order, leave what the pass [mergeStep] leaves, style of
    the parent and children alike. *)
Lemma merge_loop (sz : nat) :
  forall cs : list Identified,
    sizeOfList cs <= sz ->
    forall (i : nat) t a st (done : list Identified),
      NoDup (idsOfList (done ++ cs)) ->
      exists st' cs',
        fold_left (fun el x => mergeTurn x el) (spansOfList cs)
          (IElement i t a st (done ++ cs))
        = IElement i t a st' (done ++ cs')
        /\ fold_left (mergeStep (isSpan t)) (map forget cs) (st, map forget done)
           = (st', map forget (done ++ cs'))
        /\ incl (idsOfList cs') (idsOfList cs)
        /\ NoDup (idsOfList cs')
        /\ (isSpan t = false -> st' = st).
Proof.
  assert (Hnil : forall (i : nat) t a st (done : list Identified),
             exists st' cs',
               fold_left (fun el x => mergeTurn x el) (spansOfList [])
                 (IElement i t a st (done ++ []))
               = IElement i t a st' (done ++ cs')
               /\ fold_left (mergeStep (isSpan t)) (map forget []) (st, map forget done)
                  = (st', map forget (done ++ cs'))
               /\ incl (idsOfList cs') (idsOfList [])
               /\ NoDup (idsOfList cs')
               /\ (isSpan t = false -> st' = st)).
  { intros i t a st done. exists st, []. rewrite !app_nil_r.
    repeat split; auto using incl_refl. constructor. }
  induction sz as [| sz IH]; intros cs Hsz i t a st done Hnd.
  { destruct cs as [| c cs]; [apply Hnil |].
    rewrite sizeOfList_cons in Hsz. pose proof (sizeOf_pos c). lia. }
  destruct cs as [| c rest]; [apply Hnil |].
  rewrite sizeOfList_cons in Hsz.
  rewrite idsOfList_app, idsOfList_cons in Hnd.
  destruct c as [j d | j tc ac stc ccs].
  - (* a text node stays *)
    destruct (IH rest ltac:(cbn in Hsz; lia) i t a st (done ++ [IText j d]))
      as [st' [cs' [Hloop [Hpass [Hincl [Hnd' Hst]]]]]].
    { rewrite <- app_assoc. cbn [app]. now rewrite idsOfList_app, idsOfList_cons. }
    exists st', (IText j d :: cs').
    rewrite <- !app_assoc in Hloop. rewrite <- !app_assoc in Hpass. cbn [app] in Hloop, Hpass.
    split; [| split; [| split; [| split]]].
    + rewrite spansOfList_cons. cbn [isSpanNode querySelectorAllSpan app]. exact Hloop.
    + cbn [map fold_left]. rewrite map_app in Hpass. exact Hpass.
    + rewrite !idsOfList_cons. apply incl_app_app; [apply incl_refl | exact Hincl].
    + rewrite idsOfList_cons. cbn [idsOf app]. constructor; [| exact Hnd'].
      intros Hin. apply Hincl in Hin.
      apply NoDup_app_remove_l in Hnd. cbn [idsOf app] in Hnd.
      now inversion Hnd.
    + exact Hst.
  - cbn [idsOf] in Hnd. fold (idsOfList ccs) in Hnd.
    assert (Hj_done : ~ In j (idsOfList done)).
    { intros Hin. apply (NoDup_app_disjoint _ _ j Hnd Hin). now left. }
    assert (Hnd_c : NoDup (j :: idsOfList ccs ++ idsOfList rest)).
    { apply NoDup_app_remove_l in Hnd. exact Hnd. }
    assert (Hj_rest : ~ In j (idsOfList rest)).
    { inversion Hnd_c as [| ? ? Hj _]; subst. intros Hin. apply Hj.
      apply in_or_app. now right. }
    assert (Hj_ccs : ~ In j (idsOfList ccs)).
    { inversion Hnd_c as [| ? ? Hj _]; subst. intros Hin. apply Hj.
      apply in_or_app. now left. }
    destruct (isSpan tc && isSpan t) eqn:Hmerge.
    + (* a span under a span goes, its children take its place *)
      apply andb_true_iff in Hmerge. destruct Hmerge as [Htc Ht].
      destruct (IH (ccs ++ rest)
                  ltac:(rewrite sizeOfList_app; cbn in Hsz; fold (sizeOfList ccs) in Hsz; lia)
                  i t a (setCssText (st ++ stc)) done)
        as [st' [cs' [Hloop [Hpass [Hincl [Hnd' Hst]]]]]].
      { rewrite !idsOfList_app.
        apply (NoDup_remove_1 (idsOfList done) (idsOfList ccs ++ idsOfList rest) j).
        exact Hnd. }
      exists st', cs'. split; [| split; [| split; [| split]]].
      * rewrite spansOfList_cons. cbn [isSpanNode idOf]. rewrite Htc. cbn [app fold_left].
        cbn [mergeTurn]. rewrite (find_here j done rest (IElement j tc ac stc ccs) eq_refl Hj_done), Ht.
        rewrite (splice_here j done rest (IElement j tc ac stc ccs) eq_refl Hj_done Hj_rest).
        cbn [cssTextOf childNodesOf].
        rewrite querySelectorAllSpan_Element, <- spansOfList_app. exact Hloop.
      * cbn [map fold_left forget].
        change (mergeStep (isSpan t) (st, map forget done) (Element tc ac stc (map forget ccs)))
          with (fst (mergeSpans (isSpan t) st (Element tc ac stc (map forget ccs))),
                map forget done
                ++ snd (mergeSpans (isSpan t) st (Element tc ac stc (map forget ccs)))).
        rewrite mergeSpans_Element, Htc, Ht, mergeSpansAmong_fold.
        rewrite <- mergeStep_shift, <- fold_left_app, <- map_app. rewrite Ht in Hpass.
        exact Hpass.
      * intros x Hx. apply Hincl in Hx. rewrite idsOfList_app in Hx.
        rewrite idsOfList_cons. cbn [idsOf]. fold (idsOfList ccs).
        right. exact Hx.
      * exact Hnd'.
      * intros Hf. rewrite Hf in Ht. discriminate Ht.
    + (* any other element stays, and the loop goes on among its children *)
      destruct (IH ccs ltac:(cbn in Hsz; fold (sizeOfList ccs) in Hsz; lia) j tc ac stc [])
        as [stc' [ccs' [Hloop_c [Hpass_c [Hincl_c [Hnd_ccs' Hst_c]]]]]].
      { cbn [app]. inversion Hnd_c as [| ? ? _ H]; subst.
        now apply NoDup_app_remove_r in H. }
      cbn [app map] in Hloop_c, Hpass_c.
      assert (Hnd_new : NoDup (idsOfList ((done ++ [IElement j tc ac stc' ccs']) ++ rest))).
      { rewrite <- app_assoc. cbn [app]. rewrite idsOfList_app, idsOfList_cons.
        cbn [idsOf]. fold (idsOfList ccs').
        apply (NoDup_app_incl (idsOfList done)
                 ((j :: idsOfList ccs) ++ idsOfList rest)); auto using incl_refl.
        - cbn [app]. apply incl_cons; [now left |]. apply incl_tl.
          apply incl_app_app; [exact Hincl_c | apply incl_refl].
        - now apply NoDup_app_remove_r in Hnd.
        - cbn [app]. constructor.
          + intros Hin. apply in_app_or in Hin. destruct Hin as [Hin | Hin];
              [apply Hj_ccs; now apply Hincl_c | now apply Hj_rest].
          + inversion Hnd_c as [| ? ? _ H]; subst.
            apply (NoDup_app_incl (idsOfList ccs) (idsOfList rest));
              auto using incl_refl. now apply NoDup_app_remove_l in H. }
      destruct (IH rest ltac:(pose proof (sizeOf_pos (IElement j tc ac stc ccs)); lia)
                  i t a st (done ++ [IElement j tc ac stc' ccs']) Hnd_new)
        as [st' [cs' [Hloop [Hpass [Hincl [Hnd' Hst]]]]]].
      rewrite <- !app_assoc in Hloop. rewrite <- !app_assoc in Hpass. cbn [app] in Hloop, Hpass.
      exists st', (IElement j tc ac stc' ccs' :: cs').
      split; [| split; [| split; [| split]]].
      * rewrite spansOfList_cons, !fold_left_app.
        assert (Hfirst :
                  fold_left (fun el x => mergeTurn x el)
                    (if isSpanNode (IElement j tc ac stc ccs)
                     then [idOf (IElement j tc ac stc ccs)] else [])
                    (IElement i t a st (done ++ IElement j tc ac stc ccs :: rest))
                  = IElement i t a st (done ++ IElement j tc ac stc ccs :: rest)).
        { cbn [isSpanNode idOf]. destruct (isSpan tc) eqn:Htc; [| reflexivity].
          cbn [fold_left mergeTurn].
          rewrite (find_here j done rest (IElement j tc ac stc ccs) eq_refl Hj_done).
          cbn [andb] in Hmerge. now rewrite Hmerge. }
        rewrite Hfirst.
        rewrite (fold_mergeTurn_inside i t a st done rest).
        -- rewrite querySelectorAllSpan_Element, Hloop_c. exact Hloop.
        -- intros x Hx. rewrite querySelectorAllSpan_Element in Hx.
           apply spansOfList_incl in Hx. cbn [idOf]. repeat split.
           ++ intros ->. now apply Hj_ccs.
           ++ intros Hin. apply (NoDup_app_disjoint _ _ x Hnd Hin).
              right. apply in_or_app. now left.
           ++ inversion Hnd_c as [| ? ? _ H]; subst.
              now apply (NoDup_app_disjoint _ _ x H).
      * cbn [map fold_left forget].
        change (mergeStep (isSpan t) (st, map forget done) (Element tc ac stc (map forget ccs)))
          with (fst (mergeSpans (isSpan t) st (Element tc ac stc (map forget ccs))),
                map forget done
                ++ snd (mergeSpans (isSpan t) st (Element tc ac stc (map forget ccs)))).
        rewrite mergeSpans_Element, !mergeSpansAmong_fold.
        rewrite map_app in Hpass. cbn [map forget] in Hpass.
        destruct (isSpan tc) eqn:Htc.
        -- cbn [andb] in Hmerge. rewrite Hmerge in Hpass |- *.
           rewrite Hpass_c. cbn [fst snd]. exact Hpass.
        -- pose proof (Hst_c eq_refl) as E. subst stc'.
           rewrite Hpass_c. cbn [fst snd]. exact Hpass.
      * rewrite !idsOfList_cons. cbn [idsOf]. fold (idsOfList ccs) (idsOfList ccs').
        apply incl_cons; [now left |]. apply incl_tl.
        apply incl_app_app; assumption.
      * rewrite idsOfList_cons. cbn [idsOf]. fold (idsOfList ccs').
        apply (NoDup_app_incl (j :: idsOfList ccs) (idsOfList rest)
                 (j :: idsOfList ccs') (idsOfList cs')); auto.
        -- apply incl_cons; [now left |]. now apply incl_tl.
        -- constructor; [| assumption]. intros Hin. now apply Hj_ccs, Hincl_c.
      * exact Hst.
Qed.

(** *** The second loop, turn by turn *)

Lemma removeTurn_absent (x : nat) (n : Identified) :
  ~ In x (idsOfList (childNodesOf n)) -> removeTurn x n = n.
Proof.
  induction n as [i d | i t a st cs IH] using Identified_nested_ind; [reflexivity |].
  cbn [childNodesOf removeTurn]. intros H. rewrite (find_absent x cs H). f_equal.
  induction IH as [| c cs Hc Hcs IHcs]; [reflexivity |].
  cbn [map]. unfold idsOfList in H. cbn [flat_map] in H. f_equal.
  - apply Hc. intros Hin. apply H. apply in_or_app. left.
    destruct c; [destruct Hin | now right].
  - apply IHcs. intros Hin. apply H. apply in_or_app. now right.
Qed.

Lemma removeTurn_idOf (x : nat) (n : Identified) : idOf (removeTurn x n) = idOf n.
Proof.
  destruct n as [i d | i t a st cs]; [reflexivity |].
  cbn [removeTurn]. destruct (find _ cs) as [span |];
    [destruct (isEmptySpan (forget span)) |]; reflexivity.
Qed.

Lemma map_removeTurn_absent (x : nat) (l : list Identified) :
  ~ In x (idsOfList l) -> map (removeTurn x) l = l.
Proof.
  intros H. rewrite <- (map_id l) at 2. apply map_ext_in. intros c Hc.
  apply removeTurn_absent. intros Hin. apply H.
  now apply (idsOf_children_incl c l Hc).
Qed.

Lemma removeTurn_inside (x i : nat) t a st (done rest : list Identified) (c : Identified) :
  x <> idOf c -> ~ In x (idsOfList done) -> ~ In x (idsOfList rest) ->
  removeTurn x (IElement i t a st (done ++ c :: rest))
  = IElement i t a st (done ++ removeTurn x c :: rest).
Proof.
  intros Hc Hdone Hrest. cbn [removeTurn].
  rewrite (find_app_none _ done (c :: rest) (find_absent x done Hdone)).
  cbn [find]. destruct (Nat.eqb_spec (idOf c) x) as [Heq | _]; [now elim Hc |].
  rewrite (find_absent x rest Hrest).
  rewrite map_app. cbn [map].
  now rewrite (map_removeTurn_absent x done Hdone), (map_removeTurn_absent x rest Hrest).
Qed.

Lemma fold_removeTurn_inside (i : nat) t a st (done rest : list Identified) (xs : list nat) :
  forall c : Identified,
    (forall x, In x xs -> x <> idOf c /\ ~ In x (idsOfList done) /\ ~ In x (idsOfList rest)) ->
    fold_left (fun el x => removeTurn x el) xs (IElement i t a st (done ++ c :: rest))
    = IElement i t a st (done ++ fold_left (fun el x => removeTurn x el) xs c :: rest).
Proof.
  induction xs as [| x xs IH]; intros c H; [reflexivity |].
  cbn [fold_left]. destruct (H x (or_introl eq_refl)) as [H1 [H2 H3]].
  rewrite removeTurn_inside by assumption. apply IH.
  intros y Hy. rewrite removeTurn_idOf. apply H. now right.
Qed.

Lemma fold_removeTurn_absent (xs : list nat) (n : Identified) :
  (forall x, In x xs -> ~ In x (idsOfList (childNodesOf n))) ->
  fold_left (fun el x => removeTurn x el) xs n = n.
Proof.
  induction xs as [| x xs IH]; intros H; [reflexivity |].
  cbn [fold_left]. rewrite removeTurn_absent by (apply H; now left).
  apply IH. intros y Hy. apply H. now right.
Qed.

Lemma filter_absent (j : nat) (l : list Identified) :
  ~ In j (idsOfList l) -> filter (fun c' => negb (Nat.eqb (idOf c') j)) l = l.
Proof.
  intros H. induction l as [| d l IH]; [reflexivity |].
  cbn [filter]. destruct (Nat.eqb_spec (idOf d) j) as [Heq | Hne].
  - exfalso. apply H. rewrite <- Heq. apply root_in_idsOfList. now left.
  - cbn [negb]. f_equal. apply IH. intros Hin. apply H. unfold idsOfList in *.
    cbn [flat_map]. apply in_or_app. now right.
Qed.

Lemma filter_here (j : nat) (done rest : list Identified) (c : Identified) :
  idOf c = j -> ~ In j (idsOfList done) -> ~ In j (idsOfList rest) ->
  filter (fun c' => negb (Nat.eqb (idOf c') j)) (done ++ c :: rest) = done ++ rest.
Proof.
  intros Hc Hdone Hrest. rewrite filter_app. cbn [filter].
  rewrite (filter_absent j done Hdone), (filter_absent j rest Hrest).
  now rewrite Hc, Nat.eqb_refl.
Qed.

(** The second loop over the children [cs] of a parent: the turns of the
    spans of [cs], in document order, leave what [removeEmptySpans]
    leaves.  The turn of a span that went with an empty span above it
    finds nothing. *)
Lemma remove_loop (sz : nat) :
  forall cs : list Identified,
    sizeOfList cs <= sz ->
    forall (i : nat) t a st (done : list Identified),
      NoDup (idsOfList (done ++ cs)) ->
      exists cs',
        fold_left (fun el x => removeTurn x el) (spansOfList cs)
          (IElement i t a st (done ++ cs))
        = IElement i t a st (done ++ cs')
        /\ map forget cs' = flat_map removeEmptySpans (map forget cs)
        /\ incl (idsOfList cs') (idsOfList cs)
        /\ NoDup (idsOfList cs').
Proof.
  assert (Hnil : forall (i : nat) t a st (done : list Identified),
             exists cs',
               fold_left (fun el x => removeTurn x el) (spansOfList [])
                 (IElement i t a st (done ++ []))
               = IElement i t a st (done ++ cs')
               /\ map forget cs' = flat_map removeEmptySpans (map forget [])
               /\ incl (idsOfList cs') (idsOfList [])
               /\ NoDup (idsOfList cs')).
  { intros i t a st done. exists []. repeat split; auto using incl_refl. constructor. }
  induction sz as [| sz IH]; intros cs Hsz i t a st done Hnd.
  { destruct cs as [| c cs]; [apply Hnil |].
    rewrite sizeOfList_cons in Hsz. pose proof (sizeOf_pos c). lia. }
  destruct cs as [| c rest]; [apply Hnil |].
  rewrite sizeOfList_cons in Hsz.
  rewrite idsOfList_app, idsOfList_cons in Hnd.
  destruct c as [j d | j tc ac stc ccs].
  - destruct (IH rest ltac:(cbn in Hsz; lia) i t a st (done ++ [IText j d]))
      as [cs' [Hloop [Hpass [Hincl Hnd']]]].
    { rewrite <- app_assoc. cbn [app]. now rewrite idsOfList_app, idsOfList_cons. }
    exists (IText j d :: cs').
    rewrite <- !app_assoc in Hloop. cbn [app] in Hloop.
    split; [| split; [| split]].
    + rewrite spansOfList_cons. cbn [isSpanNode querySelectorAllSpan app]. exact Hloop.
    + cbn [map flat_map forget removeEmptySpans app]. now rewrite Hpass.
    + rewrite !idsOfList_cons. apply incl_app_app; [apply incl_refl | exact Hincl].
    + rewrite idsOfList_cons. cbn [idsOf app]. constructor; [| exact Hnd'].
      intros Hin. apply Hincl in Hin.
      apply NoDup_app_remove_l in Hnd. cbn [idsOf app] in Hnd.
      now inversion Hnd.
  - cbn [idsOf] in Hnd. fold (idsOfList ccs) in Hnd.
    assert (Hj_done : ~ In j (idsOfList done)).
    { intros Hin. apply (NoDup_app_disjoint _ _ j Hnd Hin). now left. }
    assert (Hnd_c : NoDup (j :: idsOfList ccs ++ idsOfList rest)).
    { apply NoDup_app_remove_l in Hnd. exact Hnd. }
    assert (Hj_rest : ~ In j (idsOfList rest)).
    { inversion Hnd_c as [| ? ? Hj _]; subst. intros Hin. apply Hj.
      apply in_or_app. now right. }
    assert (Hj_ccs : ~ In j (idsOfList ccs)).
    { inversion Hnd_c as [| ? ? Hj _]; subst. intros Hin. apply Hj.
      apply in_or_app. now left. }
    assert (Hinside : forall x, In x (spansOfList ccs) ->
              x <> j /\ ~ In x (idsOfList done) /\ ~ In x (idsOfList rest)).
    { intros x Hx. apply spansOfList_incl in Hx. repeat split.
      - intros ->. now apply Hj_ccs.
      - intros Hin. apply (NoDup_app_disjoint _ _ x Hnd Hin).
        right. apply in_or_app. now left.
      - inversion Hnd_c as [| ? ? _ H]; subst.
        now apply (NoDup_app_disjoint _ _ x H). }
    destruct (isEmptySpan (forget (IElement j tc ac stc ccs))) eqn:Hempty.
    + (* an empty span goes, with all it holds *)
      assert (Htc : isSpan tc = true).
      { unfold isEmptySpan in Hempty. cbn [forget isElement tagOf andb] in Hempty.
        destruct (isSpan tc); [reflexivity | discriminate Hempty]. }
      destruct (IH rest ltac:(pose proof (sizeOf_pos (IElement j tc ac stc ccs)); lia)
                  i t a st done)
        as [cs' [Hloop [Hpass [Hincl Hnd']]]].
      { rewrite idsOfList_app.
        apply (NoDup_app_incl (idsOfList done) ((j :: idsOfList ccs) ++ idsOfList rest));
          auto using incl_refl.
        - intros x Hx. right. apply in_or_app. now right.
        - now apply NoDup_app_remove_r in Hnd.
        - inversion Hnd_c as [| ? ? _ H]; subst. now apply NoDup_app_remove_l in H. }
      exists cs'. split; [| split; [| split]].
      * rewrite spansOfList_cons. cbn [isSpanNode idOf]. rewrite Htc.
        cbn [app fold_left]. rewrite fold_left_app.
        cbn [removeTurn].
        rewrite (find_here j done rest (IElement j tc ac stc ccs) eq_refl Hj_done), Hempty.
        rewrite (filter_here j done rest (IElement j tc ac stc ccs) eq_refl Hj_done Hj_rest).
        rewrite (fold_removeTurn_absent (querySelectorAllSpan (IElement j tc ac stc ccs)));
          [exact Hloop |].
        intros x Hx. rewrite querySelectorAllSpan_Element in Hx.
        cbn [childNodesOf]. rewrite idsOfList_app.
        destruct (Hinside x Hx) as [_ [H1 H2]].
        intros Hin. apply in_app_or in Hin. now destruct Hin.
      * cbn [map flat_map]. rewrite <- Hpass.
        change (forget (IElement j tc ac stc ccs)) with (Element tc ac stc (map forget ccs)) in Hempty.
        cbn [forget removeEmptySpans]. now rewrite Hempty.
      * intros x Hx. apply Hincl in Hx. rewrite idsOfList_cons.
        apply in_or_app. now right.
      * exact Hnd'.
    + (* any other element stays, and the loop goes on among its children *)
      destruct (IH ccs ltac:(cbn in Hsz; fold (sizeOfList ccs) in Hsz; lia) j tc ac stc [])
        as [ccs' [Hloop_c [Hpass_c [Hincl_c Hnd_ccs']]]].
      { cbn [app]. inversion Hnd_c as [| ? ? _ H]; subst.
        now apply NoDup_app_remove_r in H. }
      cbn [app] in Hloop_c.
      assert (Hnd_new : NoDup (idsOfList ((done ++ [IElement j tc ac stc ccs']) ++ rest))).
      { rewrite <- app_assoc. cbn [app]. rewrite idsOfList_app, idsOfList_cons.
        cbn [idsOf]. fold (idsOfList ccs').
        apply (NoDup_app_incl (idsOfList done)
                 ((j :: idsOfList ccs) ++ idsOfList rest)); auto using incl_refl.
        - cbn [app]. apply incl_cons; [now left |]. apply incl_tl.
          apply incl_app_app; [exact Hincl_c | apply incl_refl].
        - now apply NoDup_app_remove_r in Hnd.
        - cbn [app]. constructor.
          + intros Hin. apply in_app_or in Hin. destruct Hin as [Hin | Hin];
              [apply Hj_ccs; now apply Hincl_c | now apply Hj_rest].
          + inversion Hnd_c as [| ? ? _ H]; subst.
            apply (NoDup_app_incl (idsOfList ccs) (idsOfList rest));
              auto using incl_refl. now apply NoDup_app_remove_l in H. }
      destruct (IH rest ltac:(pose proof (sizeOf_pos (IElement j tc ac stc ccs)); lia)
                  i t a st (done ++ [IElement j tc ac stc ccs']) Hnd_new)
        as [cs' [Hloop [Hpass [Hincl Hnd']]]].
      rewrite <- !app_assoc in Hloop. cbn [app] in Hloop.
      exists (IElement j tc ac stc ccs' :: cs').
      split; [| split; [| split]].
      * rewrite spansOfList_cons, !fold_left_app.
        assert (Hfirst :
                  fold_left (fun el x => removeTurn x el)
                    (if isSpanNode (IElement j tc ac stc ccs)
                     then [idOf (IElement j tc ac stc ccs)] else [])
                    (IElement i t a st (done ++ IElement j tc ac stc ccs :: rest))
                  = IElement i t a st (done ++ IElement j tc ac stc ccs :: rest)).
        { cbn [isSpanNode idOf]. destruct (isSpan tc) eqn:Htc; [| reflexivity].
          cbn [fold_left removeTurn].
          rewrite (find_here j done rest (IElement j tc ac stc ccs) eq_refl Hj_done).
          now rewrite Hempty. }
        rewrite Hfirst.
        rewrite (fold_removeTurn_inside i t a st done rest).
        -- rewrite querySelectorAllSpan_Element, Hloop_c. exact Hloop.
        -- intros x Hx. rewrite querySelectorAllSpan_Element in Hx. cbn [idOf].
           now apply Hinside.
      * cbn [map flat_map]. rewrite <- Hpass.
        change (forget (IElement j tc ac stc ccs)) with (Element tc ac stc (map forget ccs)) in Hempty.
        cbn [forget removeEmptySpans]. rewrite Hempty. cbn [app]. now rewrite Hpass_c.
      * rewrite !idsOfList_cons. cbn [idsOf]. fold (idsOfList ccs) (idsOfList ccs').
        apply incl_cons; [now left |]. apply incl_tl.
        apply incl_app_app; assumption.
      * rewrite idsOfList_cons. cbn [idsOf]. fold (idsOfList ccs').
        apply (NoDup_app_incl (j :: idsOfList ccs) (idsOfList rest)
                 (j :: idsOfList ccs') (idsOfList cs')); auto.
        -- apply incl_cons; [now left |]. now apply incl_tl.
        -- constructor; [| assumption]. intros Hin. now apply Hj_ccs, Hincl_c.
Qed.

(** *** Both loops *)

(** On nodes whose identities are distinct, the loops run turn by turn
    give the tree of [Commands.cleanupNestedSpans]. *)
Lemma cleanupNestedSpansLoop_forget (element : Identified) :
  NoDup (idsOf element) ->
  forget (cleanupNestedSpansLoop element) = cleanupNestedSpans (forget element).
Proof.
  destruct element as [i d | i t a st cs]; [reflexivity |].
  cbn [idsOf]. fold (idsOfList cs). intros Hnd. inversion Hnd as [| ? ? _ Hcs]; subst.
  unfold cleanupNestedSpansLoop.
  rewrite querySelectorAllSpan_Element.
  destruct (merge_loop (sizeOfList cs) cs (le_n _) i t a st [] Hcs)
    as [st' [cs1 [Hloop [Hpass [_ [Hnd1 _]]]]]].
  cbn [app map] in Hloop, Hpass. rewrite Hloop, querySelectorAllSpan_Element.
  destruct (remove_loop (sizeOfList cs1) cs1 (le_n _) i t a st' [] Hnd1)
    as [cs2 [Hloop2 [Hpass2 _]]].
  cbn [app] in Hloop2. rewrite Hloop2.
  cbn [forget cleanupNestedSpans]. rewrite mergeSpansAmong_fold, Hpass.
  cbn [fst snd]. now rewrite Hpass2.
Qed.

(** [identify] numbers the nodes of a subtree from [k] on, without a
    gap. *)
Lemma identify_ids (n : Node) :
  forall k : nat,
    idsOf (snd (identify k n)) = seq k (fst (identify k n) - k)
    /\ k < fst (identify k n).
Proof.
  induction n as [d | t a st cs IH] using Node_nested_ind; intros k.
  - cbn [identify fst snd idsOf]. replace (S k - k) with 1 by lia.
    split; [reflexivity | lia].
  - cbn [identify fst snd idsOf]. fold (idsOfList).
    set (f := fun (acc : nat * list Identified) (c : Node) =>
                let rc := identify (fst acc) c in (fst rc, snd acc ++ [snd rc])).
    assert (H : forall (acc : nat * list Identified),
               idsOfList (snd acc) = seq (S k) (fst acc - S k) -> S k <= fst acc ->
               idsOfList (snd (fold_left f cs acc))
               = seq (S k) (fst (fold_left f cs acc) - S k)
               /\ S k <= fst (fold_left f cs acc)).
    { induction IH as [| c cs Hc Hcs IHcs]; intros acc Hacc Hle; [now split |].
      cbn [fold_left]. apply IHcs.
      - unfold f. cbn [fst snd]. destruct (Hc (fst acc)) as [Hids Hlt].
        rewrite idsOfList_app, Hacc. unfold idsOfList at 1. cbn [flat_map].
        rewrite app_nil_r, Hids.
        replace (fst (identify (fst acc) c) - S k)
          with ((fst acc - S k) + (fst (identify (fst acc) c) - fst acc)) by lia.
        rewrite seq_app. do 2 f_equal. lia.
      - unfold f. cbn [fst]. destruct (Hc (fst acc)) as [_ Hlt]. lia. }
    destruct (H (S k, []) ltac:(cbn; now rewrite Nat.sub_diag) (le_n _)) as [Hids Hle].
    split; [| lia].
    change (flat_map idsOf (snd (fold_left f cs (S k, []))))
      with (idsOfList (snd (fold_left f cs (S k, [])))).
    rewrite Hids.
    replace (fst (fold_left f cs (S k, [])) - k)
      with (S (fst (fold_left f cs (S k, [])) - S k)) by lia.
    reflexivity.
Qed.

Lemma identify_NoDup (k : nat) (n : Node) : NoDup (idsOf (snd (identify k n))).
Proof. rewrite (proj1 (identify_ids n k)). apply seq_NoDup. Qed.

Lemma forget_identify (n : Node) : forall k : nat, forget (snd (identify k n)) = n.
Proof.
  induction n as [d | t a st cs IH] using Node_nested_ind; intros k; [reflexivity |].
  cbn [identify fst snd forget]. f_equal.
  set (f := fun (acc : nat * list Identified) (c : Node) =>
              let rc := identify (fst acc) c in (fst rc, snd acc ++ [snd rc])).
  assert (H : forall acc : nat * list Identified,
             map forget (snd (fold_left f cs acc)) = map forget (snd acc) ++ cs).
  { induction IH as [| c cs Hc Hcs IHcs]; intros acc;
      [cbn; now rewrite app_nil_r |].
    cbn [fold_left]. rewrite IHcs. unfold f. cbn [fst snd].
    rewrite map_app, <- app_assoc. cbn [map app]. now rewrite Hc. }
  now rewrite H.
Qed.

(** X1.  [Commands.cleanupNestedSpans] is the source's pair of loops:
    on every node, whatever the first identity given, the loops run
    turn by turn leave the tree that the two passes leave. *)
Theorem cleanupNestedSpans_is_the_loop (k : nat) (element : Node) :
  forget (cleanupNestedSpansLoop (snd (identify k element))) = cleanupNestedSpans element.
Proof.
  rewrite cleanupNestedSpansLoop_forget by apply identify_NoDup.
  now rewrite forget_identify.
Qed.

End SpanLoopFacts.

(* ------------------------------------------------------------------ *)
(** ** Image resizing                                                   *)
(* ------------------------------------------------------------------ *)

Section ResizeFacts.
Local Open Scope Q_scope.

Lemma Qmax_cases (a b : Q) :
  (a < b /\ Qmax a b = b) \/ (b <= a /\ Qmax a b = a).
Proof.
  unfold Qmax, GenericMinMax.gmax.
  destruct (Qcompare_spec a b) as [H | H | H].
  - right. split; [rewrite H; apply Qle_refl | reflexivity].
  - left. now split.
  - right. split; [now apply Qlt_le_weak | reflexivity].
Qed.

Lemma Qmin_cases (a b : Q) :
  (a <= b /\ Qmin a b = a) \/ (b < a /\ Qmin a b = b).
Proof.
  unfold Qmin, GenericMinMax.gmin.
  destruct (Qcompare_spec a b) as [H | H | H].
  - left. split; [rewrite H; apply Qle_refl | reflexivity].
  - left. split; [now apply Qlt_le_weak | reflexivity].
  - right. now split.
Qed.

Ltac clamp_cases w :=
  unfold clampWidth;
  destruct (Qmax_cases 50 w) as [[? E1] | [? E1]];
  destruct (Qmin_cases 800 w) as [[? E2] | [? E2]];
  destruct (Qmin_cases 800 50) as [[? E3] | [? E3]];
  destruct (Qmax_cases 50 800) as [[? E4] | [? E4]];
  repeat (rewrite E1 || rewrite E2 || rewrite E3 || rewrite E4);
  lra.


Lemma clampWidth_inside (w : Q) : 50 <= w <= 800 -> clampWidth w == w.
Proof. intros [Hlo Hhi]. clamp_cases w. Qed.

(** The order in which the stand-alone component applies the two bounds
    gives the same width. *)
Lemma min_max_is_clampWidth (w : Q) : Qmin 800 (Qmax 50 w) == clampWidth w.
Proof. clamp_cases w. Qed.

(** The stand-alone component resizes as the specification says, for
    each of the four handles. *)
Lemma wrapper_resize_step (st : ImageResizeWrapper.WrapperState) (clientX clientY : Q) :
  In (ImageResizeWrapper.resizeCorner st) corners ->
  ImageResizeWrapper.width (ImageResizeWrapper.resizedSize st clientX clientY)
  == clampWidth
       (requestedWidth (ImageResizeWrapper.resizeCorner st)
          (ImageResizeWrapper.width (ImageResizeWrapper.startDimensions st))
          (clientX - ImageResizeWrapper.x (ImageResizeWrapper.startPos st)))
  /\ ImageResizeWrapper.height (ImageResizeWrapper.resizedSize st clientX clientY)
     = ImageResizeWrapper.width (ImageResizeWrapper.resizedSize st clientX clientY)
       / ImageResizeWrapper.aspectRatio st.
Proof.
  intros Hc. split; [| reflexivity].
  unfold ImageResizeWrapper.resizedSize, requestedWidth, rightEdge.
  cbn [ImageResizeWrapper.width].
  destruct Hc as [<- | [<- | [<- | [<- | []]]]]; cbn [strIncludes];
    apply min_max_is_clampWidth.
Qed.

(** The editor resizes as the specification says on a right-edge handle. *)
Lemma editor_resize_step_right (start : RichTextEditor.ResizeStartData) (clientX : Q) :
  fst (RichTextEditor.resizedSize start clientX)
  = clampWidth (requestedWidth "bottom-right" (RichTextEditor.width start)
                  (clientX - RichTextEditor.x start))
  /\ snd (RichTextEditor.resizedSize start clientX)
     = fst (RichTextEditor.resizedSize start clientX)
       / RichTextEditor.aspectRatio start.
Proof. split; reflexivity. Qed.

(** The fifth scenario of the specification, in the editor: width 400,
    height 200, the bottom-right handle dragged 100 to the right. *)
Example editor_resize_bottom_right :
  match RichTextEditor.selectedImage
          (RichTextEditor.drag "bottom-right" 0 0 400 200 100 selectedAtRest) with
  | Some (Some (w, h)) => w == 500 /\ h == 250
  | _ => False
  end.
Proof. vm_compute. split; reflexivity. Qed.

(** The same gesture in the stand-alone component. *)
Example wrapper_resize_bottom_right :
  match ImageResizeWrapper.dimensions
          (ImageResizeWrapper.handleMouseMove 100 0
             (ImageResizeWrapper.handleMouseDown 0 0 "bottom-right" 400 200
                wrapperAtRest)) with
  | Some size =>
      ImageResizeWrapper.width size == 500 /\ ImageResizeWrapper.height size == 250
  | None => False
  end.
Proof. vm_compute. split; reflexivity. Qed.

(** C8.  In the editor the resize step takes no account of the handle:
    with width 400 and height 200 at the start of the gesture, dragging
    the bottom-left handle 100 to the right gives width 500 and height
    250, where a left-edge handle should subtract the travel and give
    width 300 and height 150, as the stand-alone component does. *)
Theorem editor_resize_ignores_left_edge :
  match RichTextEditor.selectedImage
          (RichTextEditor.drag "bottom-left" 0 0 400 200 100 selectedAtRest) with
  | Some (Some (w, h)) =>
      w == 500 /\ h == 250
      /\ ~ w == clampWidth (requestedWidth "bottom-left" 400 100)
  | _ => False
  end
  /\ match ImageResizeWrapper.dimensions
             (ImageResizeWrapper.handleMouseMove 100 0
                (ImageResizeWrapper.handleMouseDown 0 0 "bottom-left" 400 200
                   wrapperAtRest)) with
     | Some size =>
         ImageResizeWrapper.width size == 300 /\ ImageResizeWrapper.height size == 150
     | None => False
     end.
Proof. vm_compute. repeat split; try reflexivity. discriminate. Qed.

End ResizeFacts.

(* ================================================================== *)
(** * Further properties of the code                                    *)
(* ================================================================== *)

Section SanitizeCoverage.
Import Sanitize.

Lemma allElements_and (P Q : Node -> bool) (n : Node) :
  allElements (fun e => P e && Q e) n = allElements P n && allElements Q n.
Proof.
  induction n as [d | t a st cs IH] using Node_nested_ind; [reflexivity |].
  cbn [allElements].
  assert (H : forallb (allElements (fun e => P e && Q e)) cs
              = forallb (allElements P) cs && forallb (allElements Q) cs).
  { induction IH as [| c cs Hc Hcs IHcs]; [reflexivity |].
    cbn [forallb]. rewrite Hc, IHcs.
    destruct (allElements P c), (allElements Q c), (forallb (allElements P) cs);
      reflexivity. }
  rewrite H.
  destruct (P (Element t a st cs)), (Q (Element t a st cs)),
    (forallb (allElements P) cs); reflexivity.
Qed.

(** X2.  Whatever the markup, every element of the sanitized tree has a
    tag of [ALLOWED_TAGS] and no attribute outside [allowedAttrs]. *)
Theorem sanitizeHTML_tags_and_attributes_allowed (html : list Node) :
  forallb (allElements (fun e => tagAllowed e && attrsAllowed e)) (sanitizeHTML html)
  = true.
Proof.
  unfold sanitizeHTML, sanitize. rewrite forallb_forall. intros n Hn.
  apply in_map_iff in Hn. destruct Hn as [c [<- _]].
  now rewrite allElements_and, sanitizeChild_tags, sanitizeChild_attrs.
Qed.

Lemma textContentOfList_cons (c : Node) (cs : list Node) :
  textContentOfList (c :: cs) = (textContent c ++ textContentOfList cs)%string.
Proof. reflexivity. Qed.







End SanitizeCoverage.

Section SelectionCoverage.
Import DomRange Selection Marks.





Lemma prefixes_snoc (p : Path) (i : nat) :
  prefixes (p ++ [i]) = prefixes p ++ [p ++ [i]].
Proof.
  induction p as [| j p IH]; [reflexivity |].
  cbn [app prefixes]. rewrite IH, map_app. reflexivity.
Qed.

Lemma ancestors_snoc (content : list Node) (p : Path) (i : nat) :
  ancestors content (p ++ [i])
  = match nodeAt (editor content) (p ++ [i]) with
    | Some n => [(p ++ [i], n)]
    | None => []
    end ++ ancestors content p.
Proof.
  unfold ancestors. rewrite prefixes_snoc, rev_app_distr. reflexivity.
Qed.

Lemma isPrefixOf_refl (p : Path) : isPrefixOf p p = true.
Proof. induction p as [| i p IH]; [reflexivity |]. cbn. now rewrite Nat.eqb_refl. Qed.

Lemma isPrefixOf_snoc (q p : Path) (i : nat) :
  isPrefixOf q (p ++ [i]) = isPrefixOf q p || pathEqb q (p ++ [i]).
Proof.
  revert p. induction q as [| j q IH]; intros p.
  - now destruct p.
  - destruct p as [| k p]; cbn [app isPrefixOf pathEqb].
    + destruct (Nat.eqb j i); [| reflexivity]. cbn [andb orb].
      destruct q; reflexivity.
    + rewrite IH. now destruct (Nat.eqb j k).
Qed.

Lemma pathEqb_eq (p q : Path) : pathEqb p q = true <-> p = q.
Proof.
  revert q. induction p as [| i p IH]; intros [| j q]; cbn [pathEqb];
    try (split; [discriminate | discriminate]); [now split |].
  rewrite andb_true_iff, Nat.eqb_eq, IH. split; [intros [-> ->]; reflexivity |].
  intros H. injection H as -> ->. now split.
Qed.

Lemma isPrefixOf_length (q p : Path) :
  isPrefixOf q p = true -> List.length q <= List.length p.
Proof.
  revert p. induction q as [| i q IH]; intros p H; [apply Nat.le_0_l |].
  destruct p as [| j p]; [discriminate H |].
  cbn in *. apply andb_true_iff in H. destruct H as [_ H]. apply IH in H. lia.
Qed.

Lemma isPrefixOf_antisym (q p : Path) :
  isPrefixOf q p = true -> isPrefixOf p q = true -> q = p.
Proof.
  revert p. induction q as [| i q IH]; intros [| j p] H1 H2; try discriminate;
    [reflexivity |].
  cbn in *. apply andb_true_iff in H1, H2. destruct H1 as [Hi H1], H2 as [_ H2].
  apply Nat.eqb_eq in Hi. subst j. f_equal. now apply IH.
Qed.

Lemma find_block_innermost (content : list Node) (p : Path) :
  forall (q : Path) (n : Node),
    find (fun qn => isElement (snd qn) && includes BLOCK_ELEMENTS (tagOf (snd qn)))
      (ancestors content p) = Some (q, n) ->
    q <> [] /\ isPrefixOf q p = true /\ nodeAt (editor content) q = Some n
    /\ isBlockElement n = true
    /\ forall (q' : Path) (n' : Node),
         isPrefixOf q q' = true -> isPrefixOf q' p = true -> q' <> q ->
         nodeAt (editor content) q' = Some n' -> isBlockElement n' = false.
Proof.
  induction p as [| i p IH] using rev_ind; intros q n H; [discriminate H |].
  rewrite ancestors_snoc in H.
  destruct (nodeAt (editor content) (p ++ [i])) as [m |] eqn:Hm; cbn [app find snd] in H.
  - destruct (isElement m && includes BLOCK_ELEMENTS (tagOf m)) eqn:Hblock.
    + injection H as <- <-. split; [now destruct p |].
      split; [apply isPrefixOf_refl |]. split; [exact Hm |]. split; [exact Hblock |].
      intros q' n' H1 H2 Hne _. elim Hne. now apply isPrefixOf_antisym.
    + destruct (IH q n H) as [Hq [Hpre [Hnode [Hb Hin]]]].
      split; [exact Hq |]. split; [rewrite isPrefixOf_snoc, Hpre; reflexivity |].
      split; [exact Hnode |]. split; [exact Hb |].
      intros q' n' H1 H2 Hne Hn'. rewrite isPrefixOf_snoc in H2.
      apply orb_true_iff in H2. destruct H2 as [H2 | H2].
      * now apply (Hin q' n').
      * apply pathEqb_eq in H2. subst q'. rewrite Hm in Hn'. injection Hn' as <-.
        exact Hblock.
  - destruct (IH q n H) as [Hq [Hpre [Hnode [Hb Hin]]]].
    split; [exact Hq |]. split; [rewrite isPrefixOf_snoc, Hpre; reflexivity |].
    split; [exact Hnode |]. split; [exact Hb |].
    intros q' n' H1 H2 Hne Hn'. rewrite isPrefixOf_snoc in H2.
    apply orb_true_iff in H2. destruct H2 as [H2 | H2].
    + now apply (Hin q' n').
    + apply pathEqb_eq in H2. subst q'. rewrite Hm in Hn'. discriminate Hn'.
Qed.

(** X7.  What [findBlockParent] returns is the innermost block around
    the node: an element with a block tag, on the way from the node up
    to the editor element (the node itself counted, the editor element
    not), with no block element strictly between it and the node. *)
Theorem findBlockParent_is_innermost_block
  (content : list Node) (p q : Path) (n : Node) :
  findBlockParent content (Some p) = Some (q, n) ->
  q <> [] /\ isPrefixOf q p = true /\ nodeAt (editor content) q = Some n
  /\ isBlockElement n = true
  /\ forall (q' : Path) (n' : Node),
       isPrefixOf q q' = true -> isPrefixOf q' p = true -> q' <> q ->
       nodeAt (editor content) q' = Some n' -> isBlockElement n' = false.
Proof. unfold findBlockParent. apply find_block_innermost. Qed.

Lemma findBlockParent_is_innermost_block_witness :
  [0; 1]%nat <> []
  /\ isPrefixOf [0; 1]%nat [0; 1; 0; 0]%nat = true
  /\ nodeAt (editor [Element "UL" [] []
                       [Text " "; Element "LI" [] [] [Element "B" [] [] [Text "x"]]]])
       [0; 1]%nat
     = Some (Element "LI" [] [] [Element "B" [] [] [Text "x"]])
  /\ isBlockElement (Element "LI" [] [] [Element "B" [] [] [Text "x"]]) = true
  /\ forall (q' : Path) (n' : Node),
       isPrefixOf [0; 1]%nat q' = true -> isPrefixOf q' [0; 1; 0; 0]%nat = true ->
       q' <> [0; 1]%nat ->
       nodeAt (editor [Element "UL" [] []
                         [Text " "; Element "LI" [] [] [Element "B" [] [] [Text "x"]]]])
         q'
       = Some n' ->
       isBlockElement n' = false.
Proof.
  apply (findBlockParent_is_innermost_block
           [Element "UL" [] [] [Text " "; Element "LI" [] [] [Element "B" [] [] [Text "x"]]]]
           [0; 1; 0; 0]%nat [0; 1]%nat
           (Element "LI" [] [] [Element "B" [] [] [Text "x"]])).
  reflexivity.
Defined.

End SelectionCoverage.

Section TextCoverage.
Import DomRange Selection History Commands Marks Scenarios.

Lemma textContentOfList_one (c : Node) : textContentOfList [c] = textContent c.
Proof. rewrite textContentOfList_cons. apply append_empty_r. Qed.

Lemma substring_split (o : nat) (d : string) :
  (substringTo o d ++ substringFrom o d)%string = d.
Proof.
  unfold substringTo, substringFrom. revert o.
  induction d as [| c d IH]; intros [| o]; try reflexivity.
  - cbn [String.length Nat.sub String.substring String.append]. f_equal.
    clear. induction d as [| c d IH]; [reflexivity |]. cbn. now rewrite IH.
  - cbn [String.length Nat.sub String.substring String.append]. f_equal. apply IH.
Qed.


Lemma replaceAt_text (f : Node -> list Node) :
  forall (p : Path) (n : Node),
    (forall x, nodeAt n p = Some x -> textContentOfList (f x) = textContent x) ->
    textContentOfList (replaceAt p f n) = textContent n.
Proof.
  induction p as [| i p IH]; intros n Hf; [now apply Hf |].
  destruct n as [d | t a st cs]; [apply textContentOfList_one |].
  cbn [replaceAt]. cbn [nodeAt childrenOf] in Hf.
  destruct (nth_error cs i) as [c |] eqn:Hc; [| apply textContentOfList_one].
  rewrite textContentOfList_one, !textContent_Element, !textContentOfList_app.
  rewrite (IH c Hf).
  transitivity (textContentOfList (firstn i cs ++ c :: skipn (S i) cs));
    [| now rewrite (nth_error_split_list cs i c Hc)].
  now rewrite textContentOfList_app, textContentOfList_cons.
Qed.

Lemma single_element_text (l content : list Node) :
  textContentOfList l = textContentOfList content ->
  textContentOfList
    match l with
    | [Element _ _ _ cs] => cs
    | _ => content
    end
  = textContentOfList content.
Proof.
  intros H. destruct l as [| [d | t a st cs] [| ? ?]]; try reflexivity.
  now rewrite textContentOfList_one in H.
Qed.

Lemma replaceNode_text (f : Node -> list Node) (content : list Node) (p : Path) :
  (forall x, nodeAt (editor content) p = Some x ->
             textContentOfList (f x) = textContent x) ->
  textContentOfList (replaceNode content p f) = textContentOfList content.
Proof.
  intros Hf. unfold replaceNode. destruct p as [| i p]; [reflexivity |].
  apply single_element_text. now rewrite (replaceAt_text f (i :: p) _ Hf).
Qed.


Lemma saveHistory_innerHTML (now : Z) (w : option Range) (s : EditorState) :
  innerHTML (saveHistory now w s) = innerHTML s.
Proof.
  unfold saveHistory. destruct (isUndoRedoing s); [reflexivity |].
  now destruct (now - lastSaveTime s <? 50)%Z.
Qed.


End TextCoverage.

Section BlockStyleCoverage.
Import DomRange Selection History Commands Marks Scenarios.

Lemma nth_error_middle {A : Type} (l : list A) (i : nat) (x y : A) (tail : list A) :
  nth_error l i = Some x -> nth_error (firstn i l ++ y :: tail) i = Some y.
Proof.
  intros H. assert (Hlen : i < List.length l) by (apply nth_error_Some; congruence).
  rewrite nth_error_app2; rewrite length_firstn, Nat.min_l by lia; [| lia].
  now rewrite Nat.sub_diag.
Qed.





(** The last node of the walk that defines a scalar attribute gives the
    value reported. *)
Lemma getActiveFormats_walk
  (content : list Node) (r : Range) (k : Scalar) (inner : list Node) (a : Node)
  (v : string) :
  walk content r = inner ++ [a] -> defines k a = Some v ->
  scalarOf k (getActiveFormats content (Some r)) = Some v.
Proof.
  intros Hwalk Ha. unfold getActiveFormats. cbn [getSelection range].
  rewrite fold_listStep_scalar, Hwalk, fold_left_app. cbn [fold_left].
  now rewrite formatsStep_scalar, Ha.
Qed.









End BlockStyleCoverage.

Section RangeCoverage.
Import DomRange Selection History Commands Marks RangeOrder Scenarios.

Lemma firstn_splice {A : Type} (cs : list A) :
  forall so eo : nat, so <= eo -> firstn so (firstn so cs ++ skipn eo cs) = firstn so cs.
Proof.
  induction cs as [| x cs IH]; intros so eo H.
  - rewrite firstn_nil, skipn_nil. now rewrite firstn_nil.
  - destruct so as [| so]; [reflexivity |]. destruct eo as [| eo]; [lia |].
    cbn [firstn skipn app]. f_equal. apply IH. lia.
Qed.

Lemma skipn_splice {A : Type} (cs : list A) :
  forall so eo : nat, so <= eo -> skipn so (firstn so cs ++ skipn eo cs) = skipn eo cs.
Proof.
  induction cs as [| x cs IH]; intros so eo H.
  - rewrite firstn_nil, skipn_nil. now rewrite skipn_nil.
  - destruct so as [| so]; [reflexivity |]. destruct eo as [| eo]; [lia |].
    cbn [firstn skipn app]. apply IH. lia.
Qed.

Lemma slice_split {A : Type} (cs : list A) :
  forall so eo : nat,
    so <= eo -> firstn so cs ++ sliceList so eo cs ++ skipn eo cs = cs.
Proof.
  unfold sliceList. induction cs as [| x cs IH]; intros so eo H.
  - now rewrite !skipn_nil, !firstn_nil.
  - destruct so as [| so].
    + cbn [firstn skipn app]. rewrite Nat.sub_0_r. apply firstn_skipn.
    + destruct eo as [| eo]; [lia |]. cbn [firstn skipn app Nat.sub].
      f_equal. apply IH. lia.
Qed.

Lemma skipn_nth_error {A : Type} (cs : list A) (j : nat) (x : A) :
  nth_error cs j = Some x -> skipn j cs = x :: skipn (S j) cs.
Proof.
  revert j. induction cs as [| y cs IH]; intros [| j] H; try discriminate H.
  - now injection H as ->.
  - cbn [skipn]. now apply IH.
Qed.

Lemma firstn_exact {A : Type} (l1 l2 : list A) (k : nat) :
  List.length l1 = k -> firstn k (l1 ++ l2) = l1.
Proof. intros <-. rewrite firstn_app, Nat.sub_diag, firstn_all. apply app_nil_r. Qed.

Lemma skipn_exact {A : Type} (l1 l2 : list A) (k : nat) :
  List.length l1 = k -> skipn k (l1 ++ l2) = l2.
Proof. intros <-. rewrite skipn_app, Nat.sub_diag, skipn_all. reflexivity. Qed.

Lemma firstn_length_nth {A : Type} (cs : list A) (i : nat) (x : A) :
  nth_error cs i = Some x -> List.length (firstn i cs) = i.
Proof.
  intros H. assert (i < List.length cs) by (apply nth_error_Some; congruence).
  rewrite length_firstn. lia.
Qed.

Lemma substring_all (s : string) : String.substring 0 (String.length s) s = s.
Proof. induction s as [| c s IH]; [reflexivity |]. cbn. now rewrite IH. Qed.

Lemma substring_none (s : string) : String.substring 0 0 s = "".
Proof. now destruct s. Qed.

Lemma substringTo_splice (d : string) :
  forall so eo : nat,
    so <= eo ->
    substringTo so (substringTo so d ++ substringFrom eo d) = substringTo so d.
Proof.
  unfold substringTo, substringFrom.
  induction d as [| c d IH]; intros so eo H.
  - destruct so, eo; reflexivity.
  - destruct so as [| so]; [now rewrite !substring_none |].
    destruct eo as [| eo]; [lia |].
    cbn [String.length Nat.sub String.substring String.append]. f_equal.
    apply IH. lia.
Qed.

Lemma substringFrom_splice (d : string) :
  forall so eo : nat,
    so <= eo ->
    substringFrom so (substringTo so d ++ substringFrom eo d) = substringFrom eo d.
Proof.
  unfold substringTo, substringFrom.
  induction d as [| c d IH]; intros so eo H.
  - destruct so, eo; reflexivity.
  - destruct so as [| so].
    + cbn [String.substring String.append]. rewrite Nat.sub_0_r. apply substring_all.
    + destruct eo as [| eo]; [lia |].
      cbn [String.length Nat.sub String.substring String.append]. apply IH. lia.
Qed.

Lemma substring_three (d : string) :
  forall so eo : nat,
    so <= eo ->
    (substringTo so d ++ String.substring so (eo - so) d ++ substringFrom eo d)%string = d.
Proof.
  unfold substringTo, substringFrom.
  induction d as [| c d IH]; intros so eo H.
  - destruct so, eo; reflexivity.
  - destruct so as [| so].
    + cbn [String.substring String.append]. rewrite Nat.sub_0_r.
      apply (substring_split eo (String c d)).
    + destruct eo as [| eo]; [lia |].
      cbn [String.length Nat.sub String.substring String.append]. f_equal.
      apply IH. lia.
Qed.

Lemma append_assoc (a b c : string) : ((a ++ b) ++ c)%string = (a ++ b ++ c)%string.
Proof. induction a as [| x a IH]; [reflexivity |]. cbn. now rewrite IH. Qed.

(** What [insertNode] makes of the text of the container. *)
Lemma insertIn_text_around (o : nat) (nodes : list Node) (container : Node) :
  textContentOfList (insertIn o nodes container)
  = match container with
    | Text d => (substringTo o d ++ textContentOfList nodes ++ substringFrom o d)%string
    | Element _ _ _ cs =>
        (textContentOfList (firstn o cs) ++ textContentOfList nodes
         ++ textContentOfList (skipn o cs))%string
    end.
Proof.
  destruct container as [d | t a st cs]; cbn [insertIn].
  - rewrite !textContentOfList_app, !textContentOfList_one. reflexivity.
  - now rewrite textContentOfList_one, textContent_Element, !textContentOfList_app.
Qed.

Lemma extractFrom_text :
  forall (p : Path) (o : nat) (n : Node),
    (textContent (snd (extractFrom p o n)) ++ textContent (fst (extractFrom p o n)))%string
    = textContent n.
Proof.
  induction p as [| i p IH]; intros o n; destruct n as [d | t a st cs];
    cbn [extractFrom].
  - cbn [fst snd textContent]. apply substring_split.
  - cbn [fst snd]. rewrite !textContent_Element, <- textContentOfList_app.
    now rewrite firstn_skipn.
  - cbn [fst snd textContent]. apply substring_split.
  - destruct (nth_error cs i) as [c |] eqn:Hc; cbn [fst snd];
      rewrite !textContent_Element.
    + rewrite textContentOfList_app, textContentOfList_one, textContentOfList_cons.
      rewrite append_assoc, <- (append_assoc (textContent (snd (extractFrom p o c)))), IH.
      rewrite <- textContentOfList_cons, <- textContentOfList_app.
      now rewrite (nth_error_split_list cs i c Hc).
    + apply append_empty_r.
Qed.

Lemma extractTo_text :
  forall (p : Path) (o : nat) (n : Node),
    (textContent (fst (extractTo p o n)) ++ textContent (snd (extractTo p o n)))%string
    = textContent n.
Proof.
  induction p as [| i p IH]; intros o n; destruct n as [d | t a st cs];
    cbn [extractTo].
  - cbn [fst snd textContent]. apply substring_split.
  - cbn [fst snd]. rewrite !textContent_Element, <- textContentOfList_app.
    now rewrite firstn_skipn.
  - cbn [fst snd textContent]. apply substring_split.
  - destruct (nth_error cs i) as [c |] eqn:Hc; cbn [fst snd];
      rewrite !textContent_Element.
    + rewrite textContentOfList_app, textContentOfList_one, textContentOfList_cons.
      rewrite append_assoc, <- (append_assoc (textContent (fst (extractTo p o c)))), IH.
      rewrite <- textContentOfList_cons, <- textContentOfList_app.
      now rewrite (nth_error_split_list cs i c Hc).
    + reflexivity.
Qed.


Lemma firstn_S_nth {A : Type} (cs : list A) (i : nat) (x : A) :
  nth_error cs i = Some x -> firstn (S i) cs = firstn i cs ++ [x].
Proof.
  revert i. induction cs as [| y cs IH]; intros [| i] H; try discriminate H.
  - now injection H as ->.
  - cbn [firstn app]. f_equal. now apply IH.
Qed.

Lemma firstn_before {A : Type} (cs : list A) (i : nat) (x : A) (tail : list A) :
  nth_error cs i = Some x -> firstn i (firstn i cs ++ tail) = firstn i cs.
Proof. intros H. apply firstn_exact, (firstn_length_nth cs i x H). Qed.

Lemma firstn_through {A : Type} (cs : list A) (i : nat) (x y : A) (tail : list A) :
  nth_error cs i = Some x -> firstn (S i) (firstn i cs ++ y :: tail) = firstn i cs ++ [y].
Proof.
  intros H. replace (firstn i cs ++ y :: tail) with ((firstn i cs ++ [y]) ++ tail)
    by now rewrite <- app_assoc.
  apply firstn_exact. rewrite length_app, (firstn_length_nth cs i x H). cbn. lia.
Qed.

Lemma skipn_through {A : Type} (cs : list A) (i : nat) (x y : A) (tail : list A) :
  nth_error cs i = Some x -> skipn (S i) (firstn i cs ++ y :: tail) = tail.
Proof.
  intros H. replace (firstn i cs ++ y :: tail) with ((firstn i cs ++ [y]) ++ tail)
    by now rewrite <- app_assoc.
  apply skipn_exact. rewrite length_app, (firstn_length_nth cs i x H). cbn. lia.
Qed.

Lemma textContentOfList_nil : textContentOfList [] = "".
Proof. reflexivity. Qed.

Ltac text_norm :=
  repeat (rewrite textContentOfList_app || rewrite textContentOfList_cons
          || rewrite textContentOfList_nil || rewrite textContent_Element
          || rewrite append_assoc || rewrite append_empty_r);
  cbn [String.append textContent].

(** An element that gives nothing to the fragment: what is inserted at
    offset [o] goes between its children. *)
Lemma nothing_extracted (t : string) (a : list (string * string))
  (st : CSSStyleDeclaration) (cs : list Node) (o : nat) :
  exists before after : string,
    textContent (Element t a st cs) = (before ++ textContentOfList [] ++ after)%string
    /\ forall nodes,
         textContentOfList (replaceAt [] (insertIn o nodes) (Element t a st cs))
         = (before ++ textContentOfList nodes ++ after)%string.
Proof.
  exists (textContentOfList (firstn o cs)), (textContentOfList (skipn o cs)). split.
  - rewrite textContent_Element, textContentOfList_nil. cbn [String.append].
    now rewrite <- textContentOfList_app, firstn_skipn.
  - intros nodes. cbn [replaceAt]. apply (insertIn_text_around o nodes (Element t a st cs)).
Qed.

(** The text law of [extractContents]: the text of the node is the text
    before the range, the text of the fragment and the text after the
    range; and what is inserted at the point the range collapses to
    stands between the text before and the text after. *)
Lemma extractBetween_text :
  forall (sp : Path) (so : nat) (ep : Path) (eo : nat) (n : Node),
    startsBeforeEnd sp so ep eo n = true ->
    exists before after : string,
      textContent n
      = (before ++ textContentOfList (fragment (extractBetween sp so ep eo n))
         ++ after)%string
      /\ forall nodes,
           textContentOfList
             (replaceAt (newContainer (extractBetween sp so ep eo n))
                (insertIn (newOffset (extractBetween sp so ep eo n)) nodes)
                (remaining (extractBetween sp so ep eo n)))
           = (before ++ textContentOfList nodes ++ after)%string.
Proof.
  assert (HText : forall sp so ep eo d,
             startsBeforeEnd sp so ep eo (Text d) = true ->
             exists before after : string,
               textContent (Text d)
               = (before
                  ++ textContentOfList (fragment (extractBetween sp so ep eo (Text d)))
                  ++ after)%string
               /\ forall nodes,
                    textContentOfList
                      (replaceAt (newContainer (extractBetween sp so ep eo (Text d)))
                         (insertIn (newOffset (extractBetween sp so ep eo (Text d))) nodes)
                         (remaining (extractBetween sp so ep eo (Text d))))
                    = (before ++ textContentOfList nodes ++ after)%string).
  { intros sp so ep eo d H.
    assert (H' : Nat.leb so eo = true) by (destruct sp; exact H).
    clear H. apply Nat.leb_le in H'. rename H' into H.
    assert (Hex : extractBetween sp so ep eo (Text d)
                  = mkExtraction [Text (String.substring so (eo - so) d)]
                      (Text (substringTo so d ++ substringFrom eo d)%string) [] so)
      by (destruct sp; reflexivity).
    rewrite Hex. cbn [fragment remaining newContainer newOffset replaceAt].
    exists (substringTo so d), (substringFrom eo d). split.
    - rewrite textContentOfList_one. cbn [textContent]. symmetry.
      now apply substring_three.
    - intros nodes. rewrite insertIn_text_around.
      now rewrite substringTo_splice, substringFrom_splice. }
  induction sp as [| i sp IH]; intros so ep eo n H;
    (destruct n as [d | t a st cs]; [now apply HText |]).
  - destruct ep as [| j ep]; cbn [startsBeforeEnd] in H; apply Nat.leb_le in H;
      cbn [extractBetween].
    + cbn [fragment remaining newContainer newOffset replaceAt].
      exists (textContentOfList (firstn so cs)), (textContentOfList (skipn eo cs)).
      split.
      * rewrite textContent_Element, <- !textContentOfList_app.
        now rewrite slice_split.
      * intros nodes. rewrite insertIn_text_around.
        now rewrite firstn_splice, skipn_splice.
    + destruct (nth_error cs j) as [cj |] eqn:Hj;
        cbn [fragment remaining newContainer newOffset];
        [| apply nothing_extracted].
      exists (textContentOfList (firstn so cs)),
        (textContent (snd (extractTo ep eo cj)) ++ textContentOfList (skipn (S j) cs))%string.
      assert (Hlen : so < List.length cs)
        by (assert (j < List.length cs) by (apply nth_error_Some; congruence); lia).
      split.
      * rewrite textContent_Element.
        rewrite <- (slice_split cs so j H) at 1.
        rewrite (skipn_nth_error cs j cj Hj). text_norm.
        now rewrite <- (extractTo_text ep eo cj), append_assoc.
      * intros nodes. cbn [replaceAt]. rewrite insertIn_text_around.
        rewrite firstn_exact, skipn_exact by (rewrite length_firstn; lia).
        now text_norm.
  - destruct ep as [| j ep]; cbn [startsBeforeEnd] in H.
    + apply Nat.ltb_lt in H. cbn [extractBetween].
      destruct (nth_error cs i) as [ci |] eqn:Hi;
        cbn [fragment remaining newContainer newOffset];
        [| apply nothing_extracted].
      exists (textContentOfList (firstn i cs)
              ++ textContent (snd (extractFrom sp so ci)))%string,
        (textContentOfList (skipn eo cs)).
      split.
      * rewrite textContent_Element.
        rewrite <- (slice_split cs (S i) eo H) at 1.
        rewrite (firstn_S_nth cs i ci Hi). text_norm.
        now rewrite <- (extractFrom_text sp so ci), append_assoc.
      * intros nodes. cbn [replaceAt]. rewrite insertIn_text_around.
        rewrite (firstn_through cs i ci _ _ Hi), (skipn_through cs i ci _ _ Hi).
        now text_norm.
    + cbn [extractBetween]. destruct (Nat.eqb_spec i j) as [<- | Hij].
      * destruct (nth_error cs i) as [c |] eqn:Hi;
          cbn [fragment remaining newContainer newOffset];
          [| apply nothing_extracted].
        destruct (IH so ep eo c H) as [before [after [Htext Hins]]].
        exists (textContentOfList (firstn i cs) ++ before)%string,
          (after ++ textContentOfList (skipn (S i) cs))%string.
        split.
        -- rewrite textContent_Element.
           rewrite <- (nth_error_split_list cs i c Hi) at 1. text_norm.
           rewrite Htext. now text_norm.
        -- intros nodes. cbn [replaceAt].
           rewrite (nth_error_middle cs i c _ _ Hi).
           rewrite textContentOfList_one, textContent_Element.
           rewrite (firstn_before cs i c _ Hi), (skipn_through cs i c _ _ Hi).
           rewrite !textContentOfList_app, Hins. now text_norm.
      * apply Nat.ltb_lt in H.
        destruct (nth_error cs i) as [ci |] eqn:Hi;
          [| cbn [fragment remaining newContainer newOffset]; apply nothing_extracted].
        destruct (nth_error cs j) as [cj |] eqn:Hj;
          cbn [fragment remaining newContainer newOffset];
          [| apply nothing_extracted].
        exists (textContentOfList (firstn i cs)
                ++ textContent (snd (extractFrom sp so ci)))%string,
          (textContent (snd (extractTo ep eo cj))
           ++ textContentOfList (skipn (S j) cs))%string.
        split.
        -- rewrite textContent_Element.
           rewrite <- (slice_split cs (S i) j H) at 1.
           rewrite (firstn_S_nth cs i ci Hi), (skipn_nth_error cs j cj Hj). text_norm.
           rewrite <- (extractFrom_text sp so ci), <- (extractTo_text ep eo cj).
           now text_norm.
        -- intros nodes. cbn [replaceAt]. rewrite insertIn_text_around.
           rewrite (firstn_through cs i ci _ _ Hi), (skipn_through cs i ci _ _ Hi).
           now text_norm.
Qed.

End RangeCoverage.

Section RangeCommands.
Import DomRange Selection History Commands Marks RangeOrder Scenarios.

Lemma extractBetween_remaining (sp : Path) (so : nat) (ep : Path) (eo : nat)
  (t : string) (a : list (string * string)) (st : CSSStyleDeclaration) (cs : list Node) :
  exists cs', remaining (extractBetween sp so ep eo (Element t a st cs))
              = Element t a st cs'.
Proof.
  destruct sp as [| i sp], ep as [| j ep]; cbn [extractBetween].
  - eexists; reflexivity.
  - destruct (nth_error cs j); eexists; reflexivity.
  - destruct (nth_error cs i); eexists; reflexivity.
  - destruct (Nat.eqb i j).
    + destruct (nth_error cs i); eexists; reflexivity.
    + destruct (nth_error cs i); [destruct (nth_error cs j) |]; eexists; reflexivity.
Qed.

Lemma replaceAt_insertIn_element (nodes : list Node) (o : nat) :
  forall (p : Path) (t : string) (a : list (string * string))
         (st : CSSStyleDeclaration) (cs : list Node),
    exists cs', replaceAt p (insertIn o nodes) (Element t a st cs) = [Element t a st cs'].
Proof.
  intros [| i p] t a st cs; cbn [replaceAt insertIn].
  - eexists; reflexivity.
  - destruct (nth_error cs i); eexists; reflexivity.
Qed.

(** What is inserted at a boundary point of the document goes between
    the text before the point and the text after it. *)
Lemma insert_text_at (o : nat) :
  forall (p : Path) (n x : Node),
    nodeAt n p = Some x ->
    exists before after : string,
      textContent n = (before ++ after)%string
      /\ forall nodes,
           textContentOfList (replaceAt p (insertIn o nodes) n)
           = (before ++ textContentOfList nodes ++ after)%string.
Proof.
  induction p as [| i p IH]; intros n x Hx.
  - destruct n as [d | t a st cs].
    + exists (substringTo o d), (substringFrom o d). split.
      * symmetry. apply substring_split.
      * intros nodes. apply (insertIn_text_around o nodes (Text d)).
    + exists (textContentOfList (firstn o cs)), (textContentOfList (skipn o cs)). split.
      * now rewrite textContent_Element, <- textContentOfList_app, firstn_skipn.
      * intros nodes. apply (insertIn_text_around o nodes (Element t a st cs)).
  - destruct n as [d | t a st cs]; cbn [nodeAt childrenOf] in Hx; [now destruct i |].
    destruct (nth_error cs i) as [c |] eqn:Hc; [| discriminate Hx].
    destruct (IH c x Hx) as [before [after [Htext Hins]]].
    exists (textContentOfList (firstn i cs) ++ before)%string,
      (after ++ textContentOfList (skipn (S i) cs))%string.
    split.
    + rewrite textContent_Element. rewrite <- (nth_error_split_list cs i c Hc) at 1.
      rewrite textContentOfList_app, textContentOfList_cons, Htext.
      now rewrite !append_assoc.
    + intros nodes. cbn [replaceAt]. rewrite Hc.
      rewrite textContentOfList_one, textContent_Element, !textContentOfList_app, Hins.
      now rewrite !append_assoc.
Qed.

(** The text law of the document: under a range in order, the text is
    the text before the range, the selected text and the text after it;
    whatever is then inserted where the range collapses to stands
    between the text before and the text after. *)
Lemma extractContents_text (content : list Node) (r : Range) :
  inOrder content r = true ->
  exists before after : string,
    textContentOfList content = (before ++ toString content r ++ after)%string
    /\ forall nodes,
         textContentOfList
           (insertNode (childrenOf (remaining (extractContents content r)))
              (newContainer (extractContents content r))
              (newOffset (extractContents content r)) nodes)
         = (before ++ textContentOfList nodes ++ after)%string.
Proof.
  unfold inOrder, toString, extractContents, insertNode.
  destruct (collapsed r).
  - destruct (nodeAt (editor content) (startContainer r)) as [x |] eqn:Hx;
      [intros _ | discriminate].
    destruct (insert_text_at (DomRange.startOffset r) _ _ _ Hx) as [before [after [Htext Hins]]].
    exists before, after. cbn [fragment remaining newContainer newOffset childrenOf editor].
    split; [exact Htext |]. intros nodes.
    fold (editor content). rewrite <- Hins.
    destruct (replaceAt_insertIn_element nodes (DomRange.startOffset r) (startContainer r)
                "DIV" [] [] content) as [cs' Hcs'].
    unfold editor at 1 2. rewrite Hcs'. now rewrite textContentOfList_one.
  - intros H.
    destruct (extractBetween_text _ _ _ _ _ H) as [before [after [Htext Hins]]].
    exists before, after. split; [exact Htext |]. intros nodes. rewrite <- Hins.
    destruct (extractBetween_remaining (startContainer r) (DomRange.startOffset r)
                (endContainer r) (DomRange.endOffset r) "DIV" [] [] content) as [cs' Hrem].
    unfold editor. rewrite Hrem. cbn [childrenOf].
    destruct (replaceAt_insertIn_element nodes
                (newOffset (extractBetween (startContainer r) (DomRange.startOffset r)
                              (endContainer r) (DomRange.endOffset r)
                              (Element "DIV" [] [] content)))
                (newContainer (extractBetween (startContainer r) (DomRange.startOffset r)
                                 (endContainer r) (DomRange.endOffset r)
                                 (Element "DIV" [] [] content)))
                "DIV" [] [] cs') as [cs'' Hcs''].
    unfold editor. rewrite Hcs''. now rewrite textContentOfList_one.
Qed.

Lemma ancestors_In (content : list Node) (p q : Path) (n : Node) :
  In (q, n) (ancestors content p) -> nodeAt (editor content) q = Some n.
Proof.
  induction p as [| i p IH] using rev_ind; [intros [] |].
  rewrite ancestors_snoc. intros H. apply in_app_or in H. destruct H as [H | H].
  - destruct (nodeAt (editor content) (p ++ [i])) as [m |] eqn:Hm; [| destruct H].
    destruct H as [H | []]. now injection H as <- <-.
  - now apply IH.
Qed.

(** X11.  [toggleInlineStyle] never changes the text of the document:
    neither where it wraps the selection in a new element, nor where it
    unwraps the element that carries the style. *)
Theorem toggleInlineStyle_keeps_text
  (tagName : InlineTag) (now : Z) (r : Range) (s : EditorState) :
  inOrder (innerHTML s) r = true ->
  textContentOfList (innerHTML (toggleInlineStyle tagName now (Some r) s))
  = textContentOfList (innerHTML s).
Proof.
  intros Hr. unfold toggleInlineStyle. cbn [getSelection range isCollapsed]. cbv zeta.
  destruct (collapsed r) eqn:Hc; [reflexivity |].
  destruct (formatActive tagName (getActiveFormats (innerHTML s) (Some r))).
  - destruct (find _ (ancestors (innerHTML s) (startContainer r))) as [[q el] |] eqn:Hq.
    + cbn [setInnerHTML innerHTML]. apply find_some in Hq. destruct Hq as [Hin Hel].
      apply ancestors_In in Hin. cbn [snd] in Hel.
      apply replaceNode_text. intros x Hx. rewrite Hin in Hx. injection Hx as <-.
      destruct el as [d | t a st cs]; [discriminate Hel | reflexivity].
    + now rewrite saveHistory_innerHTML.
  - cbn [setInnerHTML innerHTML].
    destruct (extractContents_text (innerHTML s) r Hr) as [before [after [Htext Hins]]].
    rewrite Hins, Htext, textContentOfList_one. reflexivity.
Qed.

Lemma toggleInlineStyle_keeps_text_witness :
  textContentOfList
    (innerHTML (toggleInlineStyle TagB 1000 (Some insideRedWord) (mount redWord)))
  = textContentOfList (innerHTML (mount redWord)).
Proof.
  apply (toggleInlineStyle_keeps_text TagB 1000 insideRedWord (mount redWord)).
  reflexivity.
Defined.





End RangeCommands.

Section CleanupCoverage.
Import DomRange Selection History Commands Marks RangeOrder Scenarios.













End CleanupCoverage.

Section BlockCommands.
Import DomRange Selection History Commands Marks RangeOrder Toolbar Scenarios.

Lemma nodeAt_top (content : list Node) (i : nat) :
  nodeAt (editor content) [i] = nth_error content i.
Proof. cbn [nodeAt editor childrenOf]. now destruct (nth_error content i). Qed.

(** Replacing a child of the editor element. *)
Lemma replaceNode_top (content : list Node) (i : nat) (x : Node)
  (f : Node -> list Node) :
  nth_error content i = Some x ->
  replaceNode content [i] f = firstn i content ++ f x ++ skipn (S i) content.
Proof. intros H. unfold replaceNode, editor. cbn [replaceAt]. now rewrite H. Qed.

Lemma ancestors_top (content : list Node) (i : nat) (x : Node) :
  nth_error content i = Some x -> ancestors content [i] = [([i], x)].
Proof.
  intros H. unfold ancestors. cbn [prefixes rev map app flat_map].
  now rewrite nodeAt_top, H.
Qed.

Lemma ancestors_second (content : list Node) (i k : nat) (x y : Node) :
  nth_error content i = Some x -> nth_error (childrenOf x) k = Some y ->
  ancestors content [i; k] = [([i; k], y); ([i], x)].
Proof.
  intros Hx Hy. unfold ancestors. cbn [prefixes rev map app flat_map].
  rewrite nodeAt_top, Hx. cbn [nodeAt editor childrenOf]. now rewrite Hx, Hy.
Qed.



End BlockCommands.

Section ToolbarCoverage.
Import DomRange Selection History Commands Marks RangeOrder Toolbar EnterKey Scenarios.

(** The label of the block dropdown for each block type. *)
Lemma label_of_block_tag (tagName : BlockTag) (formats : Formats) :
  block formats = Some (toLowerCase (blockTagName tagName)) ->
  getCurrentBlockLabel formats
  = match tagName with
    | TagP => "Paragraph"
    | TagH1 => "Heading 1"
    | TagH2 => "Heading 2"
    | TagH3 => "Heading 3"
    | TagBLOCKQUOTE => "Quote"
    | TagPRE => "Code"
    end.
Proof. intros H. unfold getCurrentBlockLabel. rewrite H. now destruct tagName. Qed.

(** X17.  What the block dropdown shows after [setBlockType] has
    converted a top-level block: with the caret where the command
    leaves it, at the end of the new block, [getActiveFormats] reports
    the new tag and [getCurrentBlockLabel] gives its label. *)
Theorem block_dropdown_shows_new_block_type
  (tagName : BlockTag) (now : Z) (r : Range) (s : EditorState)
  (i : nat) (blockNode : Node) :
  findBlockParent (innerHTML s) (Some (startContainer r)) = Some ([i], blockNode) ->
  let caret :=
    mkRange [i] (List.length (childrenOf blockNode))
      [i] (List.length (childrenOf blockNode)) in
  block (getActiveFormats (innerHTML (setBlockType tagName now (Some r) s)) (Some caret))
  = Some (toLowerCase (blockTagName tagName))
  /\ getCurrentBlockLabel
       (getActiveFormats (innerHTML (setBlockType tagName now (Some r) s)) (Some caret))
     = match tagName with
       | TagP => "Paragraph"
       | TagH1 => "Heading 1"
       | TagH2 => "Heading 2"
       | TagH3 => "Heading 3"
       | TagBLOCKQUOTE => "Quote"
       | TagPRE => "Code"
       end.
Proof.
  intros Hblock caret.
  destruct (find_block_innermost _ _ _ _ Hblock) as [_ [_ [Hnode _]]].
  rewrite nodeAt_top in Hnode.
  assert (Hcontent : innerHTML (setBlockType tagName now (Some r) s)
                     = firstn i (innerHTML s)
                       ++ [Element (blockTagName tagName) [] (styleOf blockNode)
                             (childrenOf blockNode)]
                       ++ skipn (S i) (innerHTML s)).
  { unfold setBlockType. cbn [getSelection range selStartContainer]. cbv zeta.
    rewrite Hblock. cbn [setInnerHTML innerHTML].
    now rewrite (replaceNode_top _ _ _ _ Hnode). }
  assert (Hformats : block (getActiveFormats
                              (innerHTML (setBlockType tagName now (Some r) s))
                              (Some caret))
                     = Some (toLowerCase (blockTagName tagName))).
  { change (block ?f) with (scalarOf BlockKind f).
    apply (getActiveFormats_walk _ caret BlockKind []
             (Element (blockTagName tagName) [] (styleOf blockNode)
                (childrenOf blockNode))).
    - unfold walk, caret. cbn [startContainer].
      rewrite (ancestors_top _ i
                 (Element (blockTagName tagName) [] (styleOf blockNode)
                    (childrenOf blockNode))); [reflexivity |].
      rewrite Hcontent. cbn [app]. apply (nth_error_middle _ _ _ _ _ Hnode).
    - now destruct tagName. }
  split; [exact Hformats | now apply label_of_block_tag].
Qed.

Lemma block_dropdown_shows_new_block_type_witness :
  let caret := mkRange [0]%nat (List.length (childrenOf (Element "P" [] [] [Text "Hello"])))
                 [0]%nat (List.length (childrenOf (Element "P" [] [] [Text "Hello"]))) in
  block (getActiveFormats
           (innerHTML (setBlockType TagBLOCKQUOTE 1000 wholeText (mount hello)))
           (Some caret))
  = Some (toLowerCase (blockTagName TagBLOCKQUOTE))
  /\ getCurrentBlockLabel
       (getActiveFormats
          (innerHTML (setBlockType TagBLOCKQUOTE 1000 wholeText (mount hello)))
          (Some caret))
     = "Quote".
Proof.
  apply (block_dropdown_shows_new_block_type TagBLOCKQUOTE 1000
           (mkRange [0; 0]%nat 0 [0; 0]%nat 5) (mount hello) 0
           (Element "P" [] [] [Text "Hello"])).
  reflexivity.
Defined.

(** X18.  The font dropdown shows a font of its own list, and the one
    that was chosen: [getCurrentFontFamily] always returns a label of
    [FONT_FAMILIES]; when the active font family is the value of an
    entry, it returns the label of that entry. *)
Theorem font_dropdown_shows_chosen_font (formats : Formats) :
  In (getCurrentFontFamily formats) (map fst FONT_FAMILIES)
  /\ (forall label value : string,
         In (label, value) FONT_FAMILIES ->
         fontFamily formats = Some value ->
         getCurrentFontFamily formats = label).
Proof.
  split.
  - unfold getCurrentFontFamily.
    destruct (find _ FONT_FAMILIES) as [[label value] |] eqn:Hfind; [| now left].
    apply find_some in Hfind. destruct Hfind as [Hin _]. cbn [fst].
    destruct (truthy label); [| now left].
    apply in_map_iff. now exists (label, value).
  - intros label value Hin Hf. unfold getCurrentFontFamily. rewrite Hf.
    unfold FONT_FAMILIES in Hin. cbn [In] in Hin.
    repeat (destruct Hin as [Hin | Hin];
            [injection Hin as <- <-; vm_compute; reflexivity |]).
    destruct Hin.
Qed.

Lemma font_dropdown_shows_chosen_font_witness :
  getCurrentFontFamily
    (mkFormats false false false false None None None (Some "Georgia, serif")
       None None false false)
  = "Georgia".
Proof.
  apply (proj2 (font_dropdown_shows_chosen_font
                  (mkFormats false false false false None None None
                     (Some "Georgia, serif") None None false false))
           "Georgia" "Georgia, serif").
  - right. right. left. reflexivity.
  - reflexivity.
Defined.

End ToolbarCoverage.

Section EnterKeyCoverage.
Import DomRange Selection History Commands Marks RangeOrder EnterKey Scenarios.

(** X19.  Enter with the caret in the text of a top-level heading: the
    handler prevents the default action, saves the history first, and
    puts an empty paragraph after the heading.  The heading is not
    split: it keeps all its children, also the text after the caret. *)
Theorem enter_in_heading_adds_paragraph_after
  (now : Z) (r : Range) (s : EditorState) (i k : nat) (heading : Node) (d : string) :
  nth_error (innerHTML s) i = Some heading ->
  isElement heading = true ->
  includes HEADINGS (tagOf heading) = true ->
  nth_error (childrenOf heading) k = Some (Text d) ->
  startContainer r = [i; k]%nat ->
  defaultPrevented (handleEnter now (Some r) s) = true
  /\ innerHTML (state (handleEnter now (Some r) s))
     = firstn i (innerHTML s) ++ [heading; emptyParagraph] ++ skipn (S i) (innerHTML s)
  /\ undoStack (state (handleEnter now (Some r) s))
     = undoStack (saveHistory now (Some r) s).
Proof.
  intros Hi Hel Hh Hk Hstart.
  assert (Hfind : find (fun qn => stopsEnter (snd qn))
                    (ancestors (innerHTML s) (startContainer r))
                  = Some ([i], heading)).
  { rewrite Hstart, (ancestors_second _ _ _ heading (Text d) Hi Hk).
    cbn [find snd]. unfold stopsEnter. cbn [isElement andb]. now rewrite Hel, Hh. }
  unfold handleEnter. cbv zeta. rewrite Hfind, Hh.
  cbn [state defaultPrevented setInnerHTML innerHTML undoStack].
  rewrite (replaceNode_top _ _ _ _ Hi). repeat split.
Qed.

Lemma enter_in_heading_adds_paragraph_after_witness :
  let s := mount [Element "H2" [] [] [Text "Title"]; Element "P" [] [] [Text "x"]] in
  let r := mkRange [0; 0]%nat 2 [0; 0]%nat 2 in
  defaultPrevented (handleEnter 1000 (Some r) s) = true
  /\ innerHTML (state (handleEnter 1000 (Some r) s))
     = firstn 0 (innerHTML s)
       ++ [Element "H2" [] [] [Text "Title"]; emptyParagraph]
       ++ skipn 1 (innerHTML s)
  /\ undoStack (state (handleEnter 1000 (Some r) s))
     = undoStack (saveHistory 1000 (Some r) s).
Proof.
  apply (enter_in_heading_adds_paragraph_after 1000
           (mkRange [0; 0]%nat 2 [0; 0]%nat 2)
           (mount [Element "H2" [] [] [Text "Title"]; Element "P" [] [] [Text "x"]])
           0 0 (Element "H2" [] [] [Text "Title"]) "Title");
    reflexivity.
Defined.

(** X20.  Enter with the caret in an empty item of a top-level list:
    the item goes and an empty paragraph is put after the whole list,
    wherever in the list the item stood; when no element child is left
    the list goes too, with whatever text nodes it still held. *)
Theorem enter_in_empty_item_leaves_list
  (now : Z) (r : Range) (s : EditorState) (i k : nat)
  (t : string) (a : list (string * string)) (st : CSSStyleDeclaration)
  (cs : list Node) (la : list (string * string)) (ls : CSSStyleDeclaration)
  (lcs : list Node) :
  nth_error (innerHTML s) i = Some (Element t a st cs) ->
  t = "UL" \/ t = "OL" ->
  nth_error cs k = Some (Element "LI" la ls lcs) ->
  allSpace (textContentOfList lcs) = true ->
  startContainer r = [i; k]%nat ->
  defaultPrevented (handleEnter now (Some r) s) = true
  /\ innerHTML (state (handleEnter now (Some r) s))
     = firstn i (innerHTML s)
       ++ (if existsb isElement (firstn k cs ++ skipn (S k) cs)
           then [Element t a st (firstn k cs ++ skipn (S k) cs); emptyParagraph]
           else [emptyParagraph])
       ++ skipn (S i) (innerHTML s)
  /\ undoStack (state (handleEnter now (Some r) s))
     = undoStack (saveHistory now (Some r) s).
Proof.
  intros Hi Ht Hk Hsp Hstart.
  assert (Hfind : find (fun qn => stopsEnter (snd qn))
                    (ancestors (innerHTML s) (startContainer r))
                  = Some ([i; k]%nat, Element "LI" la ls lcs)).
  { rewrite Hstart,
      (ancestors_second _ _ _ (Element t a st cs) (Element "LI" la ls lcs) Hi Hk).
    cbn [find snd]. unfold stopsEnter. cbn [isElement tagOf andb].
    rewrite truthy_trim, textContent_Element, Hsp. reflexivity. }
  unfold handleEnter. cbv zeta. rewrite Hfind. cbn [tagOf].
  replace (includes HEADINGS "LI") with false by reflexivity.
  cbn [state defaultPrevented setInnerHTML innerHTML undoStack removelast last].
  rewrite (replaceNode_top _ _ _ _ Hi). unfold exitList.
  replace (String.eqb t "UL" || String.eqb t "OL") with true
    by (destruct Ht as [-> | ->]; reflexivity).
  repeat split.
Qed.

Lemma enter_in_empty_item_leaves_list_witness :
  let s := mount [Element "UL" [] []
                    [Element "LI" [] [] [Text "one"]; Element "LI" [] [] [BR];
                     Element "LI" [] [] [Text "three"]]] in
  let r := mkRange [0; 1]%nat 0 [0; 1]%nat 0 in
  let cs := [Element "LI" [] [] [Text "one"]; Element "LI" [] [] [BR];
             Element "LI" [] [] [Text "three"]] in
  defaultPrevented (handleEnter 1000 (Some r) s) = true
  /\ innerHTML (state (handleEnter 1000 (Some r) s))
     = firstn 0 (innerHTML s)
       ++ (if existsb isElement (firstn 1 cs ++ skipn 2 cs)
           then [Element "UL" [] [] (firstn 1 cs ++ skipn 2 cs); emptyParagraph]
           else [emptyParagraph])
       ++ skipn 1 (innerHTML s)
  /\ undoStack (state (handleEnter 1000 (Some r) s))
     = undoStack (saveHistory 1000 (Some r) s).
Proof.
  apply (enter_in_empty_item_leaves_list 1000 (mkRange [0; 1]%nat 0 [0; 1]%nat 0)
           (mount [Element "UL" [] []
                     [Element "LI" [] [] [Text "one"]; Element "LI" [] [] [BR];
                      Element "LI" [] [] [Text "three"]]])
           0 1 "UL" [] []
           [Element "LI" [] [] [Text "one"]; Element "LI" [] [] [BR];
            Element "LI" [] [] [Text "three"]] [] [] [BR]).
  - reflexivity.
  - now left.
  - reflexivity.
  - reflexivity.
  - reflexivity.
Defined.



End EnterKeyCoverage.

Section HistoryCoverage.
Import DomRange Selection History Commands EditorHandle Scenarios.

Lemma length_removelast_app {A : Type} (l : list A) (x : A) :
  List.length (removelast (l ++ [x])) = List.length l.
Proof. now rewrite removelast_last. Qed.

Lemma rev_cases {A : Type} (l : list A) :
  l = [] \/ exists below top, l = below ++ [top].
Proof.
  destruct l as [| x l]; [now left | right].
  destruct (@exists_last _ (x :: l)) as [below [top H]]; [discriminate |].
  now exists below, top.
Qed.







Lemma pushCapped_length (prev : list HistoryEntry) (entry : HistoryEntry) :
  List.length prev <= MAX_HISTORY_SIZE ->
  List.length (pushCapped prev entry) <= MAX_HISTORY_SIZE.
Proof.
  intros H. unfold pushCapped.
  destruct (Nat.ltb_spec MAX_HISTORY_SIZE (List.length (prev ++ [entry]))) as [Hlt | Hge];
    [| exact Hge].
  rewrite length_skipn. lia.
Qed.

Lemma saveHistory_withinCap (now : Z) (w : option Range) (s : EditorState) :
  List.length (undoStack s) + List.length (redoStack s) <= MAX_HISTORY_SIZE ->
  List.length (undoStack (saveHistory now w s)) + List.length (redoStack (saveHistory now w s)) <= MAX_HISTORY_SIZE.
Proof.
  unfold saveHistory. intros H.
  destruct (isUndoRedoing s); [exact H |].
  destruct (now - lastSaveTime s <? 50)%Z; cbn [undoStack redoStack]; [exact H |].
  cbn [List.length]. rewrite Nat.add_0_r. apply pushCapped_length. lia.
Qed.

Lemma step_withinCap (e : Event) (s : EditorState) :
  List.length (undoStack s) + List.length (redoStack s) <= MAX_HISTORY_SIZE ->
  List.length (undoStack (step s e)) + List.length (redoStack (step s e)) <= MAX_HISTORY_SIZE.
Proof.
  intros H. destruct e as [now w c | now w | w | w |]; cbn [step].
  - destruct (invokesSaveHistory c w) eqn:Hc.
    + destruct (execute_saves c now w s Hc) as [content' ->].
      cbn [setInnerHTML undoStack redoStack]. now apply saveHistory_withinCap.
    + now rewrite execute_noop.
  - unfold debounceFires. destruct (debounceTimeout s) as [due |]; [| exact H].
    destruct (due <=? now)%Z; [| exact H]. now apply saveHistory_withinCap.
  - unfold undo.
    destruct (rev_cases (undoStack s)) as [Hs | [below [top Hs]]]; rewrite Hs.
    + cbn [rev]. exact H.
    + rewrite rev_app_distr. cbn [rev app undoStack redoStack].
      rewrite removelast_last. rewrite Hs in H.
      rewrite !length_app in *. cbn [List.length] in *. lia.
  - unfold redo.
    destruct (rev_cases (redoStack s)) as [Hs | [below [top Hs]]]; rewrite Hs.
    + cbn [rev]. exact H.
    + rewrite rev_app_distr. cbn [rev app undoStack redoStack].
      rewrite removelast_last. rewrite Hs in H.
      rewrite !length_app in *. cbn [List.length] in *. lia.
  - exact H.
Qed.

(** X24.  The history never outgrows its bound: whatever the commands,
    timers, undos and redos, the undo stack and the redo stack hold at
    most [MAX_HISTORY_SIZE] snapshots between them, once they do. *)
Theorem history_stays_within_cap (events : list Event) (s : EditorState) :
  List.length (undoStack s) + List.length (redoStack s) <= MAX_HISTORY_SIZE ->
  List.length (undoStack (run events s)) + List.length (redoStack (run events s))
  <= MAX_HISTORY_SIZE.
Proof.
  revert s. induction events as [| e events IH]; intros s H; [exact H |].
  cbn [run fold_left]. apply IH. now apply step_withinCap.
Qed.

Lemma history_stays_within_cap_witness :
  List.length (undoStack (run (manyImages ++ [Undo None; Undo None; Redo None])
                            (mount hello)))
  + List.length (redoStack (run (manyImages ++ [Undo None; Undo None; Redo None])
                              (mount hello)))
  <= MAX_HISTORY_SIZE.
Proof.
  apply (history_stays_within_cap (manyImages ++ [Undo None; Undo None; Redo None])
           (mount hello)).
  unfold MAX_HISTORY_SIZE. cbn. lia.
Defined.

(** X25.  While a restore is in progress ([isUndoRedoing], from an undo
    or redo to its zero-delay timer) no command is recorded: stacks,
    save time and trailing timer are as before, whatever the command
    does to the document. *)
Theorem command_during_restore_is_not_recorded
  (c : Command) (now : Z) (w : option Range) (s : EditorState) :
  isUndoRedoing s = true ->
  undoStack (execute c now w s) = undoStack s
  /\ redoStack (execute c now w s) = redoStack s
  /\ lastSaveTime (execute c now w s) = lastSaveTime s
  /\ debounceTimeout (execute c now w s) = debounceTimeout s
  /\ isUndoRedoing (execute c now w s) = true.
Proof.
  intros Hu. destruct (invokesSaveHistory c w) eqn:Hc.
  - destruct (execute_saves c now w s Hc) as [content' ->].
    unfold saveHistory. rewrite Hu. cbn. now rewrite Hu.
  - rewrite execute_noop by exact Hc. now rewrite Hu.
Qed.

Lemma command_during_restore_is_not_recorded_witness :
  let s := undo None (setTextColor "red" 1000 wholeText (mount hello)) in
  undoStack (execute (SetFontSize "20px") 2000 wholeText s) = undoStack s
  /\ redoStack (execute (SetFontSize "20px") 2000 wholeText s) = redoStack s
  /\ lastSaveTime (execute (SetFontSize "20px") 2000 wholeText s) = lastSaveTime s
  /\ debounceTimeout (execute (SetFontSize "20px") 2000 wholeText s) = debounceTimeout s
  /\ isUndoRedoing (execute (SetFontSize "20px") 2000 wholeText s) = true.
Proof.
  apply (command_during_restore_is_not_recorded (SetFontSize "20px") 2000 wholeText
           (undo None (setTextColor "red" 1000 wholeText (mount hello)))).
  reflexivity.
Defined.

(** X26.  A coalesced save is not lost, and it is late: when a call of
    [saveHistory] comes less than 50ms after the last save, nothing is
    pushed; when the trailing timer fires, 50ms after the call or later,
    the snapshot pushed is the content at that moment, after whatever
    the coalesced command did. *)
Theorem trailing_save_holds_later_content
  (now fire : Z) (w w' : option Range) (content' : list Node) (s : EditorState) :
  isUndoRedoing s = false ->
  (lastSaveTime s <= now)%Z -> (now - lastSaveTime s < 50)%Z -> (now + 50 <= fire)%Z ->
  undoStack (setInnerHTML content' (saveHistory now w s)) = undoStack s
  /\ undoStack (debounceFires fire w' (setInnerHTML content' (saveHistory now w s)))
     = pushCapped (undoStack s) (mkHistoryEntry content' (getCursorPosition w'))
  /\ redoStack (debounceFires fire w' (setInnerHTML content' (saveHistory now w s))) = []
  /\ debounceTimeout (debounceFires fire w' (setInnerHTML content' (saveHistory now w s)))
     = None.
Proof.
  intros Hu Hlast Hnear Hfire. unfold saveHistory at 1 2 3 4. rewrite Hu.
  destruct (Z.ltb_spec (now - lastSaveTime s) 50) as [_ | Hge]; [| lia].
  unfold debounceFires, setInnerHTML.
  cbn [undoStack redoStack isUndoRedoing lastSaveTime debounceTimeout innerHTML].
  split; [reflexivity |].
  destruct (Z.leb_spec (now + 50) fire) as [_ | Hlt]; [| lia].
  unfold saveHistory.
  cbn [undoStack redoStack isUndoRedoing lastSaveTime debounceTimeout innerHTML].
  destruct (Z.ltb_spec (fire - lastSaveTime s) 50) as [Hlt | _]; [lia |].
  cbn [undoStack redoStack isUndoRedoing lastSaveTime debounceTimeout innerHTML].
  repeat split.
Qed.

Lemma trailing_save_holds_later_content_witness :
  let s := setTextColor "red" 1000 wholeText (mount hello) in
  undoStack (setInnerHTML [Text "later"] (saveHistory 1010 wholeText s)) = undoStack s
  /\ undoStack (debounceFires 1060 None
                  (setInnerHTML [Text "later"] (saveHistory 1010 wholeText s)))
     = pushCapped (undoStack s) (mkHistoryEntry [Text "later"] (getCursorPosition None))
  /\ redoStack (debounceFires 1060 None
                  (setInnerHTML [Text "later"] (saveHistory 1010 wholeText s))) = []
  /\ debounceTimeout (debounceFires 1060 None
                        (setInnerHTML [Text "later"] (saveHistory 1010 wholeText s)))
     = None.
Proof.
  apply (trailing_save_holds_later_content 1010 1060 wholeText None [Text "later"]
           (setTextColor "red" 1000 wholeText (mount hello)));
    [reflexivity | vm_compute; discriminate | vm_compute; reflexivity | lia].
Defined.



End HistoryCoverage.

Section LinkModalFacts.
Import LinkModal.

Lemma allSpace_trimEnd (s : string) : allSpace s = false -> allSpace (trimEnd s) = false.
Proof.
  induction s as [| c s IH]; [discriminate |].
  intros H. cbn [trimEnd]. rewrite H. cbn [allSpace] in *.
  destruct (isSpace c); [| reflexivity]. cbn [andb] in *. now apply IH.
Qed.

Lemma trimEnd_allSpace (s : string) : allSpace s = true -> trimEnd s = "".
Proof. intros H. destruct s as [| c s]; [reflexivity |]. cbn [trimEnd]. now rewrite H. Qed.

Lemma trimEnd_idempotent (s : string) : trimEnd (trimEnd s) = trimEnd s.
Proof.
  induction s as [| c s IH]; [reflexivity |].
  cbn [trimEnd]. destruct (allSpace (String c s)) eqn:Hs; [reflexivity |].
  cbn [trimEnd]. cbn [allSpace] in *.
  destruct (isSpace c); cbn [andb] in *; [| now rewrite IH].
  now rewrite (allSpace_trimEnd s Hs), IH.
Qed.

(** Trimming is idempotent, at either end and at both. *)
Lemma trimStart_fixed (s : string) :
  trimStart (trimStart s) = trimStart s.
Proof.
  induction s as [| c s IH]; [reflexivity |].
  cbn [trimStart]. destruct (isSpace c) eqn:Hc; [exact IH |].
  cbn [trimStart]. now rewrite Hc.
Qed.

Lemma trimStart_trimEnd (s : string) :
  trimStart s = s -> trimStart (trimEnd s) = trimEnd s.
Proof.
  destruct s as [| c s]; [reflexivity |].
  cbn [trimStart trimEnd]. destruct (isSpace c) eqn:Hc.
  - intros H. exfalso.
    assert (Hlen : String.length (trimStart s) <= String.length s).
    { clear. induction s as [| d s IH]; [apply le_n |].
      cbn [trimStart]. destruct (isSpace d); cbn [String.length]; lia. }
    rewrite H in Hlen. cbn [String.length] in Hlen. lia.
  - intros _. cbn [allSpace]. rewrite Hc. cbn [andb trimStart]. now rewrite Hc.
Qed.

Lemma trim_idempotent (s : string) : trim (trim s) = trim s.
Proof.
  unfold trim. rewrite (trimStart_trimEnd (trimStart s)) by apply trimStart_fixed.
  apply trimEnd_idempotent.
Qed.

Lemma trimEnd_app (p t : string) :
  allSpace t = false -> trimEnd (p ++ t) = (p ++ trimEnd t)%string.
Proof.
  intros Ht. induction p as [| c p IH]; [reflexivity |].
  cbn [String.append trimEnd].
  replace (allSpace (String c (p ++ t))) with false.
  - now rewrite IH.
  - cbn [allSpace]. rewrite allSpace_app, Ht. now rewrite !andb_false_r.
Qed.


(** X29.  An address the form has submitted goes through the form
    unchanged. *)
Theorem handleSubmit_is_idempotent (url finalUrl : string) :
  handleSubmit url = Some finalUrl -> handleSubmit finalUrl = Some finalUrl.
Proof.
  unfold handleSubmit. rewrite truthy_trim.
  destruct (allSpace url) eqn:Hsp; cbn [negb]; [discriminate |].
  assert (Ht : allSpace (trim url) = false).
  { unfold trim. apply allSpace_trimEnd. now rewrite allSpace_trimStart. }
  destruct (negb (startsWith (trim url) "http://")
            && negb (startsWith (trim url) "https://")
            && negb (startsWith (trim url) "mailto:")) eqn:Hscheme;
    intros H.
  - assert (Hu : finalUrl = ("https://" ++ trim url)%string) by congruence.
    rewrite Hu. clear H Hu.
    assert (Hfix : trim ("https://" ++ trim url) = ("https://" ++ trim url)%string).
    { unfold trim at 1.
      change (trimStart ("https://" ++ trim url)) with ("https://" ++ trim url)%string.
      rewrite trimEnd_app by exact Ht. f_equal.
      unfold trim. apply trimEnd_idempotent. }
    rewrite !Hfix. unfold startsWith. cbn.
    now destruct (trim url).
  - injection H as <-.
    rewrite trim_idempotent, truthy_trim, Hsp. cbn [negb]. now rewrite Hscheme.
Qed.

Lemma handleSubmit_is_idempotent_witness :
  handleSubmit "https://example.com/a" = Some "https://example.com/a".
Proof.
  apply (handleSubmit_is_idempotent "  example.com/a " "https://example.com/a").
  reflexivity.
Defined.

End LinkModalFacts.

Section ResizeCoverage.
Local Open Scope Q_scope.




End ResizeCoverage.
